(** * XIAO voice-logger BLE receiver: reassembly, flow control, session loop

    Shallow embedding of [XiaoAudioReceiver] from [receive.py]:
    [crc16_ccitt], [send_credits], [process_buffered_packets],
    [notification_handler] and [download_file].

    Conventions of the embedding.
    - Python integers that the code only ever keeps non-negative (sequence
      numbers, counters, the CRC register) are [N]; [len(...)] is [nat].
      Where the source subtracts two of them without a guard the
      subtraction is done in [Z].
    - [bytes]/[bytearray] are [list byte]; the dict [packet_buffer] is a
      [gmap N (list byte)].  The code reads the dict only through [in],
      [pop], [del], [len], [min] and [sorted], so insertion order is not
      observable.
    - Console output and calls into the BLE client are recorded as a list
      of [event]s returned next to the new state.
    - The transport and the clock are inputs: whether a GATT write
      succeeds, which frames are delivered while the driving loop is
      suspended in an [await], and what [time.time() - start_time] reads.
    - The throttled progress line ([should_update_progress]) touches only
      [last_progress_update] and the console; it is left out, together
      with [start_time] and [last_progress_update]. *)

From Stdlib Require Import NArith ZArith List Lia.
From Stdlib.Strings Require Import Byte.
From stdpp Require Import gmap list sorting strings pretty.

Local Open Scope N_scope.

(** ** Bytes *)

Abbreviation bytes := (list byte).

(** [data[lo:hi]] for [0 <= lo <= hi]. *)
Definition slice (lo hi : nat) (data : bytes) : bytes :=
  take (hi - lo) (drop lo data).

(** [struct.unpack('<I', b)[0]] and [struct.unpack('<H', b)[0]]:
    little-endian unsigned integer held in [b]. *)
Fixpoint unpack_le (b : bytes) : N :=
  match b with
  | [] => 0
  | x :: rest => Byte.to_N x + 256 * unpack_le rest
  end.

(** ** CRC16-CCITT *)

(** One round of the inner [for _ in range(8)] loop. *)
Definition crc_round (crc : N) : N :=
  if negb (N.land crc 0x8000 =? 0)
  then N.land (N.lxor (N.shiftl crc 1) 0x1021) 0xFFFF
  else N.land (N.shiftl crc 1) 0xFFFF.

(** Body of the outer [for byte in data] loop. *)
Definition crc_byte (crc : N) (x : byte) : N :=
  Nat.iter 8 crc_round (N.lxor crc (N.shiftl (Byte.to_N x) 8)).

Definition crc16_ccitt (data : bytes) : N :=
  fold_left crc_byte data 0xFFFF.

(** ** Receiver state *)

Record receiver := mkReceiver {
  file_size : N;
  received_data : bytes;
  expected_seq : N;
  total_packets : N;
  credits_sent : N;
  file_transfer_complete : bool;
  packet_buffer : gmap N bytes
}.

(** [self.max_buffer_size = 100]; never reassigned. *)
Definition max_buffer_size : nat := 100.

Definition set_received_data (v : bytes) (r : receiver) : receiver :=
  mkReceiver (file_size r) v (expected_seq r) (total_packets r)
             (credits_sent r) (file_transfer_complete r) (packet_buffer r).

Definition set_expected_seq (v : N) (r : receiver) : receiver :=
  mkReceiver (file_size r) (received_data r) v (total_packets r)
             (credits_sent r) (file_transfer_complete r) (packet_buffer r).

Definition set_total_packets (v : N) (r : receiver) : receiver :=
  mkReceiver (file_size r) (received_data r) (expected_seq r) v
             (credits_sent r) (file_transfer_complete r) (packet_buffer r).

Definition set_credits_sent (v : N) (r : receiver) : receiver :=
  mkReceiver (file_size r) (received_data r) (expected_seq r) (total_packets r)
             v (file_transfer_complete r) (packet_buffer r).

Definition set_file_transfer_complete (v : bool) (r : receiver) : receiver :=
  mkReceiver (file_size r) (received_data r) (expected_seq r) (total_packets r)
             (credits_sent r) v (packet_buffer r).

Definition set_packet_buffer (v : gmap N bytes) (r : receiver) : receiver :=
  mkReceiver (file_size r) (received_data r) (expected_seq r) (total_packets r)
             (credits_sent r) (file_transfer_complete r) v.

(** ** Observable actions *)

Inductive event : Type :=
| PacketTooShort (len : nat)
| EofReceived (seq : N)
| LengthMismatch (expected : N) (got : nat)
| CrcError (seq calculated received : N)
| LargeGap (expected seq : N)
| SkippingTo (next_seq gap : N)
| DroppedOld (seq : N)
| CreditWrite (credits : N)
| CreditError
| StartNotify
| StopNotify
| NearlyComplete
| Stalled (nbytes buffered : nat)
| SkippingGap (from to : N)
| TimeoutNoData
| DownloadError.

(** A method body: new state and the actions it performed, in order. *)
Definition step : Type := receiver → receiver * list event.

Definition and_then (f g : step) : step := λ r,
  let '(r1, e1) := f r in
  let '(r2, e2) := g r1 in
  (r2, e1 ++ e2).

Infix ">>>" := and_then (at level 62, right associativity).

Definition say (es : list event) : step := λ r, (r, es).

Definition idle : step := say [].

(** ** [send_credits] *)

(** [bytes([credits])] raises for [credits > 255] before anything is
    written; a failing [write_gatt_char] is caught as well.  Either way the
    counter is left alone.  [during] is what the rest of the program does
    to the receiver while the caller is suspended in
    [await self.client.write_gatt_char(...)]; the counter is bumped only
    after the await returns. *)
Definition send_credits (credits : N) (write_ok : bool) (during : step) : step :=
  if 255 <? credits then say [CreditError]
  else
    say [CreditWrite credits] >>> during >>>
    (λ r, if write_ok
          then (set_credits_sent (credits_sent r + credits) r, [])
          else (r, [CreditError])).

(** ** [process_buffered_packets] *)

(** The [while self.expected_seq in self.packet_buffer] loop.  Every
    iteration pops one entry, so [size (packet_buffer r)] rounds are
    enough (see [drain_finished]). *)
Fixpoint drain (fuel : nat) (r : receiver) : receiver :=
  match fuel with
  | O => r
  | S fuel' =>
      match packet_buffer r !! expected_seq r with
      | Some payload =>
          drain fuel'
            (set_expected_seq (expected_seq r + 1)
               (set_received_data (received_data r ++ payload)
                  (set_packet_buffer (delete (expected_seq r) (packet_buffer r)) r)))
      | None => r
      end
  end.

(** [sorted(self.packet_buffer.keys())] *)
Definition sorted_keys (m : gmap N bytes) : list N :=
  merge_sort N.le (elements (dom m)).

(** [for seq in old_seqs: del self.packet_buffer[seq]] *)
Definition delete_all (ks : list N) (m : gmap N bytes) : gmap N bytes :=
  foldl (λ acc k, delete k acc) m ks.

Definition old_seqs (m : gmap N bytes) : list N :=
  take (size m - max_buffer_size / 2)%nat (sorted_keys m).

Definition process_buffered_packets : step := λ r,
  let r1 := drain (size (packet_buffer r)) r in
  if (max_buffer_size <? size (packet_buffer r1))%nat
  then (set_packet_buffer
          (delete_all (old_seqs (packet_buffer r1)) (packet_buffer r1)) r1,
        DroppedOld <$> old_seqs (packet_buffer r1))
  else (r1, []).

(** ** [notification_handler] *)

(** The [elif seq == self.expected_seq] arm. *)
Definition accept_in_order (payload : bytes) : step := λ r,
  process_buffered_packets
    (set_expected_seq (expected_seq r + 1)
       (set_received_data (received_data r ++ payload) r)).

(** [sorted([s for s in self.packet_buffer.keys() if s >= self.expected_seq])] *)
Definition available_seqs (r : receiver) : list N :=
  merge_sort N.le
    (filter (λ s, expected_seq r ≤ s) (elements (dom (packet_buffer r)))).

(** The [else] arm: [seq > self.expected_seq]. *)
Definition buffer_out_of_order (seq : N) (payload : bytes) : step := λ r,
  match packet_buffer r !! seq with
  | Some _ => (r, [])
  | None =>
      let r1 := set_packet_buffer (<[seq := payload]> (packet_buffer r)) r in
      if 50 <? seq - expected_seq r1
      then
        match available_seqs r1 with
        | next_seq :: _ =>
            (say [LargeGap (expected_seq r1) seq;
                  SkippingTo next_seq (next_seq - expected_seq r1)] >>>
             (λ r', process_buffered_packets (set_expected_seq next_seq r'))) r1
        | [] => (r1, [LargeGap (expected_seq r1) seq])
        end
      else (r1, [])
  end.

(** Lines after the ordering [if]: the credit cadence.  Handler
    invocations are taken one after the other: the only [await] of the
    handler is this last statement, and what follows it is the commuting
    [self.credits_sent += credits]. *)
Definition credit_cadence (write_ok : bool) : step := λ r,
  if total_packets r mod 2 =? 0 then send_credits 2 write_ok idle r else (r, []).

(** The header fields and the payload slice the handler reads. *)
Definition seq_field (data : bytes) : N := unpack_le (slice 0 4 data).
Definition length_field (data : bytes) : N := unpack_le (slice 4 6 data).
Definition crc_field (data : bytes) : N := unpack_le (slice 6 8 data).
Definition payload_of (data : bytes) : bytes :=
  slice 8 (8 + N.to_nat (length_field data)) data.

(** The handler from "Verify CRC" to its end, reached once the length
    check has passed. *)
Definition after_validation (write_ok : bool) (seq crc_received : N)
    (payload : bytes) : step := λ r,
  let crc_calculated := crc16_ccitt payload in
  let crc_note :=
    if negb (crc_received =? crc_calculated)
    then [CrcError seq crc_calculated crc_received] else [] in
  let r1 := set_total_packets (total_packets r + 1) r in
  if seq <? expected_seq r1 then (r1, crc_note)
  else
    (say crc_note >>>
     (if seq =? expected_seq r1
      then accept_in_order payload
      else buffer_out_of_order seq payload) >>>
     credit_cadence write_ok) r1.

Definition notification_handler (write_ok : bool) (data : bytes) : step := λ r,
  if (length data <? 8)%nat then (r, [PacketTooShort (length data)])
  else
    let seq := seq_field data in
    let len := length_field data in
    let crc_received := crc_field data in
    let payload := payload_of data in
    if (len =? 0) && (crc_received =? 0)
    then (set_file_transfer_complete true r, [EofReceived seq])
    else if negb (N.of_nat (length payload) =? len)
    then (r, [LengthMismatch len (length payload)])
    else after_validation write_ok seq crc_received payload r.

(** ** [download_file] *)

(** One invocation of the handler by the transport: the frame, and whether
    the credit write it may issue goes through. *)
Record delivery := mkDelivery { frame : bytes; credit_ok : bool }.

Fixpoint deliver (ds : list delivery) : step :=
  match ds with
  | [] => idle
  | d :: rest => notification_handler (credit_ok d) (frame d) >>> deliver rest
  end.

(** What the environment does around one pass of the driving loop. *)
Record tick := mkTick {
  arrivals : list delivery;        (* during [await asyncio.sleep(0.5)] *)
  stall_write_ok : bool;           (* fate of [send_credits(32)], if issued *)
  stall_arrivals : list delivery;  (* during the await of that write *)
  elapsed_ms : N                   (* [time.time() - self.start_time], in ms *)
}.

Record session_env := mkEnv {
  start_ok : bool;                 (* [start_notify] does not raise *)
  initial_write_ok : bool;         (* fate of [send_credits(64)] *)
  initial_arrivals : list delivery;(* during the await of that write *)
  ticks : list tick;
  stop_ok : bool                   (* [stop_notify] does not raise *)
}.

(** Locals of the loop. *)
Record loop_vars := mkVars { last_received : nat; stall_count : nat }.

Inductive loop_exit : Type :=
| ConditionFalse      (* the [while] test failed *)
| BreakEof            (* [if self.file_transfer_complete: break] *)
| BreakNearlyComplete (* [if progress >= 99.0: break] *)
| ReturnTimeout.      (* [return False] on the 60 s check *)

(** [progress >= 99.0] where
    [progress = (len(self.received_data) / self.file_size) * 100 if self.file_size > 0 else 0].
    For [file_size < 2^32] (it is read with [struct.unpack('<I', ...)]) two
    distinct ratios on either side of 0.99 differ by at least
    [1 / (100 * 2^32)], far more than the rounding of the two float
    operations, so the float test agrees with the exact one. *)
Definition progress_ge_99 (r : receiver) : bool :=
  if 0 <? file_size r
  then 99 * file_size r <=? 100 * N.of_nat (length (received_data r))
  else false.

(** [min(self.packet_buffer.keys())]; [None] for the empty dict, which the
    code excludes with [if self.packet_buffer]. *)
Definition min_key (m : gmap N bytes) : option N :=
  match elements (dom m) with
  | [] => None
  | k :: ks => Some (foldl N.min k ks)
  end.

(** [if self.packet_buffer: ...] inside stall handling. *)
Definition stall_recovery : step := λ r,
  match min_key (packet_buffer r) with
  | None => (r, [])
  | Some min_buffered_seq =>
      if (Z.of_N min_buffered_seq - Z.of_N (expected_seq r) <=? 10)%Z
      then (say [SkippingGap (expected_seq r) min_buffered_seq] >>>
            (λ r', process_buffered_packets (set_expected_seq min_buffered_seq r'))) r
      else (r, [])
  end.

(** Stall handling once [progress < 99]. *)
Definition stall_handling (t : tick) : step := λ r,
  (say [Stalled (length (received_data r)) (size (packet_buffer r))] >>>
   send_credits 32 (stall_write_ok t) (deliver (stall_arrivals t)) >>>
   stall_recovery) r.

(** The [if len(self.received_data) == last_received: ... else: ...]
    statement.  [inr] is a [break]. *)
Definition stall_check (t : tick) (v : loop_vars) (r : receiver)
  : receiver * list event * (loop_vars + loop_exit) :=
  if (length (received_data r) =? last_received v)%nat
  then
    let stall_count' := S (stall_count v) in
    if (20 <? stall_count')%nat
    then
      if progress_ge_99 r
      then (r, [NearlyComplete], inr BreakNearlyComplete)
      else (stall_handling t r, inl (mkVars (last_received v) 0))
    else (r, [], inl (mkVars (last_received v) stall_count'))
  else (r, [], inl (mkVars (length (received_data r)) 0)).

(** One pass through the body of the [while]. *)
Definition loop_body (t : tick) (v : loop_vars) (r : receiver)
  : receiver * list event * (loop_vars + loop_exit) :=
  let '(r1, e1) := deliver (arrivals t) r in
  if file_transfer_complete r1 then (r1, e1, inr BreakEof)
  else
    let '(r2, e2, next) := stall_check t v r1 in
    match next with
    | inr x => (r2, e1 ++ e2, inr x)
    | inl v' =>
        if (60000 <? elapsed_ms t) && (length (received_data r2) =? 0)%nat
        then (r2, e1 ++ e2 ++ [TimeoutNoData], inr ReturnTimeout)
        else (r2, e1 ++ e2, inl v')
    end.

(** The [while] loop over the observed ticks.  [None]: the loop is still
    running when the observation ends. *)
Fixpoint download_loop (ts : list tick) (v : loop_vars) (r : receiver)
  : receiver * list event * option loop_exit :=
  if (N.of_nat (length (received_data r)) <? file_size r)
     && negb (file_transfer_complete r)
  then
    match ts with
    | [] => (r, [], None)
    | t :: rest =>
        match loop_body t v r with
        | (r1, e1, inr x) => (r1, e1, Some x)
        | (r1, e1, inl v') =>
            let '(r2, e2, x) := download_loop rest v' r1 in
            (r2, e1 ++ e2, x)
        end
    end
  else (r, [], Some ConditionFalse).

(** The "Reset state" block. *)
Definition reset (r : receiver) : receiver :=
  mkReceiver (file_size r) [] 0 0 0 false ∅.

Inductive outcome : Type :=
| Complete | AcceptedIncomplete | TimedOut | Aborted.

(** The value [download_file] returns on each path. *)
Definition returned (o : outcome) : bool :=
  match o with
  | Complete | AcceptedIncomplete => true
  | TimedOut | Aborted => false
  end.

Definition download_file (env : session_env) (r : receiver)
  : receiver * list event * option outcome :=
  let r0 := reset r in
  if negb (start_ok env) then (r0, [StartNotify; DownloadError], Some Aborted)
  else
    let '(r1, e1) :=
      send_credits 64 (initial_write_ok env) (deliver (initial_arrivals env)) r0 in
    let '(r2, e2, x) := download_loop (ticks env) (mkVars 0 0) r1 in
    let before := StartNotify :: e1 ++ e2 in
    match x with
    | None => (r2, before, None)
    | Some ReturnTimeout => (r2, before, Some TimedOut)
    | Some how =>
        if stop_ok env
        then (r2, before ++ [StopNotify],
              Some (match how with
                    | BreakNearlyComplete => AcceptedIncomplete
                    | _ => Complete
                    end))
        else (r2, before ++ [StopNotify; DownloadError], Some Aborted)
    end.

Definition is_stop (e : event) : bool :=
  match e with StopNotify => true | _ => false end.

(** Number of [stop_notify] calls in a run. *)
Definition stop_notify_calls (es : list event) : nat :=
  length (List.filter is_stop es).

(** ** Frames as the device lays them out

    [[seq32|len16|crc16|payload]], little-endian, as the handler's parsing
    comment has it.  Used to build concrete inputs. *)

Fixpoint pack_le (width : nat) (v : N) : bytes :=
  match width with
  | O => []
  | S w => default x00 (Byte.of_N (v mod 256)) :: pack_le w (v / 256)
  end.

Definition raw_frame (seq len crc : N) (trailing : bytes) : bytes :=
  pack_le 4 seq ++ pack_le 2 len ++ pack_le 2 crc ++ trailing.

(** A data frame as a correct sender emits it. *)
Definition data_frame (seq : N) (payload : bytes) : bytes :=
  raw_frame seq (N.of_nat (length payload)) (crc16_ccitt payload) payload.

Definition eof_frame (seq : N) : bytes := raw_frame seq 0 0 [].

(** A fresh session on a file of [size] bytes. *)
Definition fresh (size : N) : receiver := mkReceiver size [] 0 0 0 false ∅.

(** ** [save_file] *)

Section save_file.

(** What [pathlib] makes of [Path(output_dir) / self.file_name]: the path
    itself, its [stem] and [suffix], and the operation that joins a file
    name to its [parent]. *)
Variables (original_path stem suffix : string) (in_parent : string → string).

(** The paths that exist, with what they hold. *)
Variable fs : gmap string bytes.

(** [original_path.parent / f"{stem}_{counter}{suffix}"] *)
Definition numbered_path (counter : nat) : string :=
  in_parent (stem +:+ "_" +:+ pretty counter +:+ suffix).

(** The [while output_path.exists()] loop, one unit of [fuel] for each
    iteration; [None] when the fuel runs out. *)
Fixpoint free_path (fuel : nat) (output_path : string) (counter : nat)
  : option string :=
  match fs !! output_path with
  | None => Some output_path
  | Some _ =>
      match fuel with
      | O => None
      | S fuel' => free_path fuel' (numbered_path counter) (S counter)
      end
  end.

(** [save_file]: the value returned and the paths that exist afterwards.
    [io_ok] tells whether [open] and [write] go through; when they raise,
    the method returns [False].  [size fs] existing paths cannot hold
    [size fs + 1] numbered names, so [S (size fs)] iterations are enough
    (see [free_path_found]). *)
Definition save_file (io_ok : bool) (data : bytes)
  : bool * gmap string bytes :=
  match free_path (S (size fs)) original_path 1 with
  | Some output_path =>
      if io_ok then (true, <[output_path := data]> fs) else (false, fs)
  | None => (false, fs)
  end.

End save_file.

(** ** [read_file_info] *)

Definition set_file_size (v : N) (r : receiver) : receiver :=
  mkReceiver v (received_data r) (expected_seq r) (total_packets r)
             (credits_sent r) (file_transfer_complete r) (packet_buffer r).

(** [name_bytes.find(b'\x00')]: the index of the first NUL byte, [None]
    for Python's [-1]. *)
Fixpoint find_nul (name_bytes : bytes) : option nat :=
  match name_bytes with
  | [] => None
  | x :: rest => if Byte.eqb x x00 then Some O else S <$> find_nul rest
  end.

Section read_file_info.

(** Python's [str], [bytes.decode('utf-8')], which raises on bytes that are
    not UTF-8, and [str.rstrip('\x00')]. *)
Context {text : Type} (decode : bytes → option text) (rstrip_nul : text → text).

(** [info] is what [read_gatt_char(UUID_FILE_INFO)] returned, [None] when
    it raised.  The result is the value returned, the receiver and
    [self.file_name]; [self.file_size] is assigned before the name is
    decoded. *)
Definition read_file_info (info : option bytes) (r : receiver) (file_name : text)
  : bool * receiver * text :=
  match info with
  | None => (false, r, file_name)
  | Some file_info_data =>
      if (length file_info_data <? 4)%nat then (false, r, file_name)
      else
        let r1 := set_file_size (unpack_le (take 4 file_info_data)) r in
        let name_bytes := drop 4 file_info_data in
        let decoded :=
          match find_nul name_bytes with
          | Some null_pos => decode (take null_pos name_bytes)
          | None => rstrip_nul <$> decode name_bytes
          end in
        match decoded with
        | Some name => (true, r1, name)
        | None => (false, r1, file_name)
        end
  end.

End read_file_info.

(** ** [scan_for_device] *)

(** What the scan reports of a device: [device.name], [device.address] and
    [device.metadata['uuids']], [None] where the attribute or the key is
    missing. *)
Record device := mkDevice {
  dev_name : option string;
  dev_address : string;
  dev_uuids : option (list string)
}.

Definition UUID_SVC_FILE : string := "a3f9b7f0-52d1-4c7a-8f1c-7a1b9b2f0001".

(** [needle in hay] on strings. *)
Fixpoint contains (needle hay : string) : bool :=
  String.prefix needle hay ||
  match hay with
  | EmptyString => false
  | String _ rest => contains needle rest
  end.

Section scan_for_device.

(** [str.upper] and [str.lower]. *)
Variables (upper lower : string → string).

(** The test of the first loop; [if device.name] fails for [None] and for
    the empty string. *)
Definition name_matches (d : device) : bool :=
  match dev_name d with
  | None => false
  | Some name =>
      negb (String.eqb name "") &&
      (contains "XIAO" (upper name) || contains "REC" (upper name))
  end.

(** The test of the second loop. *)
Definition uuid_matches (d : device) : bool :=
  match dev_uuids d with
  | None => false
  | Some uuids => bool_decide (lower UUID_SVC_FILE ∈ lower <$> uuids)
  end.

(** The device [scan_for_device] returns for the discovered [devices]. *)
Definition scan_for_device (devices : list device) : option device :=
  let by_name :=
    foldl (λ xiao_device d, if name_matches d then Some d else xiao_device)
          None devices in
  foldl (λ xiao_device d, if uuid_matches d then Some d else xiao_device)
        by_name devices.

End scan_for_device.

(** * Vocabulary of the properties and concrete inputs *)

(** [lia] with division and remainder by constants. *)
Ltac div_lia := zify; Z.to_euclidean_division_equations; lia.

(** Every buffered key lies strictly above [expected_seq]. *)
Definition ahead (r : receiver) : Prop :=
  ∀ k, is_Some (packet_buffer r !! k) → expected_seq r < k.

(** Frames that pass every check of the handler's prologue. *)
Definition validated (data : bytes) : Prop :=
  (8 ≤ length data)%nat ∧
  ¬ (length_field data = 0 ∧ crc_field data = 0) ∧
  N.of_nat (length (payload_of data)) = length_field data.

(** Packet 0 with payload "A" and a wrong checksum field. *)
Definition bad_crc_frame : bytes := raw_frame 0 1 0 [x41].

(** What can happen to the receiver during a session, apart from the
    reset: the transport invokes the handler, or the driving loop handles a
    stall. *)
Inductive action : Type :=
| Notification (d : delivery)
| StallHandling (t : tick).

(** The method an action runs. *)
Definition perform (a : action) : step :=
  match a with
  | Notification d => notification_handler (credit_ok d) (frame d)
  | StallHandling t => stall_handling t
  end.

(** A history of actions, oldest first. *)
Fixpoint perform_all (acts : list action) : step :=
  match acts with
  | [] => idle
  | a :: rest => perform a >>> perform_all rest
  end.

(** The validated data packet a frame carries, if any: what reaches
    [after_validation]. *)
Definition packet_of (data : bytes) : option (N * bytes) :=
  if (length data <? 8)%nat then None
  else if (length_field data =? 0) && (crc_field data =? 0) then None
  else if negb (N.of_nat (length (payload_of data)) =? length_field data) then None
  else Some (seq_field data, payload_of data).

(** The validated data packets of a run of deliveries, in arrival order. *)
Definition packets (ds : list delivery) : list (N * bytes) :=
  omap (λ d, packet_of (frame d)) ds.

(** The payload first received under sequence number [k]. *)
Fixpoint arrived (ps : list (N * bytes)) (k : N) : option bytes :=
  match ps with
  | [] => None
  | (s, p) :: rest => if s =? k then Some p else arrived rest k
  end.

(** Concatenation of the payloads [f start], ..., [f (start + n - 1)]. *)
Fixpoint stream (f : N → option bytes) (start : N) (n : nat) : bytes :=
  match n with
  | O => []
  | S n' => default [] (f start) ++ stream f (N.succ start) n'
  end.

(** No validated packet arrives more than 50 ahead of the sequence number
    expected at that moment, so the large-gap branch is never taken. *)
Fixpoint in_window (ds : list delivery) (r : receiver) : bool :=
  match ds with
  | [] => true
  | d :: rest =>
      match packet_of (frame d) with
      | Some (s, _) => s <=? expected_seq r + 50
      | None => true
      end
      && in_window rest (notification_handler (credit_ok d) (frame d) r).1
  end.

(** Every sequence number always carries the same payload. *)
Definition consistent (ps : list (N * bytes)) : Prop :=
  ∀ s p q, (s, p) ∈ ps → (s, q) ∈ ps → p = q.

(** The state of the reassembly after the packets [seen], as long as the
    window was respected: everything below [expected_seq] has arrived and
    is in the output in order, [expected_seq] itself has not arrived, and
    the buffer holds exactly what arrived above it. *)
Record reassembled (seen : list (N * bytes)) (r : receiver) : Prop := {
  re_before : ∀ k, k < expected_seq r → is_Some (arrived seen k);
  re_missing : arrived seen (expected_seq r) = None;
  re_buffer : ∀ k,
    packet_buffer r !! k =
      if decide (expected_seq r < k) then arrived seen k else None;
  re_output :
    received_data r = stream (arrived seen) 0 (N.to_nat (expected_seq r));
  re_window : ∀ k, is_Some (packet_buffer r !! k) → k ≤ expected_seq r + 50
}.

(** Packets 1, 0, 2 in this order, and the same packets in sequence order. *)
Definition arrival_1_0_2 : list delivery :=
  [mkDelivery (data_frame 1 [x42]) true;
   mkDelivery (data_frame 0 [x41]) true;
   mkDelivery (data_frame 2 [x43]) true].

Definition arrival_0_1_2 : list delivery :=
  [mkDelivery (data_frame 0 [x41]) true;
   mkDelivery (data_frame 1 [x42]) true;
   mkDelivery (data_frame 2 [x43]) true].

(** Within a session the output only grows, the counters only go up and
    the declared size stays. *)
Record extends (r r' : receiver) : Prop := {
  ext_file_size : file_size r' = file_size r;
  ext_received : received_data r `prefix_of` received_data r';
  ext_packets : total_packets r ≤ total_packets r';
  ext_credits : credits_sent r ≤ credits_sent r'
}.

(** A step that only extends the receiver and never releases the
    subscription. *)
Definition orderly (s : step) : Prop :=
  ∀ r, extends r (s r).1 ∧ forallb (λ e, negb (is_stop e)) (s r).2 = true.

(** No [stop_notify] among the actions. *)
Abbreviation no_stop es := (forallb (λ e, negb (is_stop e)) es = true).

(** A pass of the loop during which nothing arrives, [i + 1] half-seconds
    into the session. *)
Definition idle_tick (i : nat) : tick :=
  mkTick [] true [] (500 * N.of_nat (S i)).

(** The first [n] passes of a session in which nothing arrives. *)
Definition idle_ticks (n : nat) : list tick := idle_tick <$> seq 0 n.

(** No frame at all for 60.5 s. *)
Definition silent_session : session_env :=
  mkEnv true true [] (idle_ticks 121) true.

(** Nothing but the end marker, which arrives after 60 s. *)
Definition eof_only_session : session_env :=
  mkEnv true true []
    (idle_ticks 120 ++ [mkTick [mkDelivery (eof_frame 0) true] true [] 60500])
    true.



(** The credit amounts written to the credit characteristic, in order. *)
Definition credit_writes (es : list event) : list N :=
  omap (λ e, match e with CreditWrite c => Some c | _ => None end) es.

(** Packet 0 received, 64 credits granted. *)
Definition after_first_packet : receiver :=
  mkReceiver 1000 [x41] 1 1 64 false ∅.

(** One packet just ahead of [expected_seq], then one far ahead: the large
    gap makes the handler skip to the near one, and the far one stays. *)
Definition overflow_round (i : nat) : list delivery :=
  [mkDelivery (data_frame (3 * N.of_nat i + 2) [x41]) true;
   mkDelivery (data_frame (10000 + N.of_nat i) [x42]) true].

(** 100 such rounds leave 100 far packets buffered; one more packet just
    ahead of [expected_seq] is buffered without any clean-up. *)
Definition overflow_arrivals : list delivery :=
  flat_map overflow_round (seq 0 100)
    ++ [mkDelivery (data_frame 302 [x43]) true].

(** The checksum complaints among the actions. *)
Definition crc_errors (es : list event) : list event :=
  List.filter (λ e, match e with CrcError _ _ _ => true | _ => false end) es.

(** Number of buffered packets more than 50 ahead of [expected_seq]. *)
Definition far_count (r : receiver) : nat :=
  size (filter (λ kv : N * bytes, expected_seq r + 50 < kv.1) (packet_buffer r)).

(** The buffer is ahead of [expected_seq] and at most [max_buffer_size] of
    its packets are more than 50 ahead. *)
Definition bounded (r : receiver) : Prop :=
  ahead r ∧ (far_count r ≤ max_buffer_size)%nat.

(** 100 packets far ahead, then the 50 sequence numbers just ahead of
    [expected_seq]. *)
Definition crowded_arrivals : list delivery :=
  flat_map overflow_round (seq 0 100)
    ++ ((λ i, mkDelivery (data_frame (301 + N.of_nat i) [x43]) true) <$> seq 0 50).

(** Sum of credit amounts. *)
Definition total_credits (cs : list N) : N := foldr N.add 0 cs.

(** Packet 0, then the end marker. *)
Definition short_transfer : list delivery :=
  [mkDelivery (data_frame 0 [x41]) true; mkDelivery (eof_frame 1) true].

(** Undoes one round of the CRC on a 16-bit register: a round leaves an odd
    value exactly when it shifted a 1 out and folded the polynomial in. *)
Definition crc_unround (y : N) : N :=
  if N.odd y
  then N.lor (N.shiftr (N.lxor y 0x1021) 1) 0x8000
  else N.shiftr y 1.

(** [test] holds at [x], [x + 1], ..., [x + fuel - 1]. *)
Fixpoint holds_from (test : N → bool) (fuel : nat) (x : N) : bool :=
  match fuel with
  | O => true
  | S fuel' => test x && holds_from test fuel' (N.succ x)
  end.

(** The receiver has nothing: no output, no buffered packet, no end
    marker, and a file to wait for. *)
Definition waiting (r : receiver) : Prop :=
  received_data r = [] ∧ packet_buffer r = ∅ ∧
  file_transfer_complete r = false ∧ 0 < file_size r.

(** Nothing is delivered during the pass. *)
Definition quiet (t : tick) : Prop := arrivals t = [] ∧ stall_arrivals t = [].



(** The handler invocations of a run, oldest first, each with the actions
    it performed. *)
Fixpoint per_call (ds : list delivery) (r : receiver)
  : list (delivery * list event) :=
  match ds with
  | [] => []
  | d :: rest =>
      (d, (notification_handler (credit_ok d) (frame d) r).2)
        :: per_call rest (notification_handler (credit_ok d) (frame d) r).1
  end.

(** The credits of the writes that went through: what an invocation wrote
    counts when its write succeeded. *)
Definition credited (calls : list (delivery * list event)) : N :=
  foldr (λ c acc,
           (if credit_ok c.1 then total_credits (credit_writes c.2) else 0) + acc)
        0 calls.

(** Packets 0 to 3 in order; the credit write after packet 1 fails, the
    one after packet 3 goes through. *)
Definition one_write_fails : list delivery :=
  [mkDelivery (data_frame 0 [x41]) true;
   mkDelivery (data_frame 1 [x42]) false;
   mkDelivery (data_frame 2 [x43]) true;
   mkDelivery (data_frame 3 [x44]) true].

(** * Properties *)

(** "123456789" has CRC-16/CCITT-FALSE check value 0x29B1. *)
Example crc16_check_value :
  crc16_ccitt [x31; x32; x33; x34; x35; x36; x37; x38; x39] = 0x29B1.
Proof. reflexivity. Qed.

(** ** Sequencing *)

Lemma and_then_state (f g : step) (r : receiver) :
  ((f >>> g) r).1 = (g (f r).1).1.
Proof. unfold and_then. destruct (f r) as [r1 e1]. simpl. by destruct (g r1). Qed.

Lemma and_then_events (f g : step) (r : receiver) :
  ((f >>> g) r).2 = (f r).2 ++ (g (f r).1).2.
Proof. unfold and_then. destruct (f r) as [r1 e1]. simpl. by destruct (g r1). Qed.

(** ** The draining loop *)

Section drain_facts.

Lemma drain_file_size fuel r : file_size (drain fuel r) = file_size r.
Proof.
  revert r. induction fuel as [|fuel IH]; intros r; simpl; [done|].
  destruct (packet_buffer r !! expected_seq r); [by rewrite IH|done].
Qed.

Lemma drain_total_packets fuel r : total_packets (drain fuel r) = total_packets r.
Proof.
  revert r. induction fuel as [|fuel IH]; intros r; simpl; [done|].
  destruct (packet_buffer r !! expected_seq r); [by rewrite IH|done].
Qed.

Lemma drain_credits_sent fuel r : credits_sent (drain fuel r) = credits_sent r.
Proof.
  revert r. induction fuel as [|fuel IH]; intros r; simpl; [done|].
  destruct (packet_buffer r !! expected_seq r); [by rewrite IH|done].
Qed.

Lemma drain_complete fuel r :
  file_transfer_complete (drain fuel r) = file_transfer_complete r.
Proof.
  revert r. induction fuel as [|fuel IH]; intros r; simpl; [done|].
  destruct (packet_buffer r !! expected_seq r); [by rewrite IH|done].
Qed.

Lemma drain_expected_le fuel r : expected_seq r ≤ expected_seq (drain fuel r).
Proof.
  revert r. induction fuel as [|fuel IH]; intros r; simpl; [lia|].
  destruct (packet_buffer r !! expected_seq r); [|lia].
  etrans; [|apply IH]. simpl. lia.
Qed.

(** Exactly the keys from the old to the new [expected_seq] are popped. *)
Lemma drain_lookup fuel r k :
  packet_buffer (drain fuel r) !! k =
    if decide (expected_seq r ≤ k < expected_seq (drain fuel r))
    then None else packet_buffer r !! k.
Proof.
  revert r. induction fuel as [|fuel IH]; intros r; simpl.
  { case_decide; [lia|done]. }
  destruct (packet_buffer r !! expected_seq r) as [p|] eqn:Hp.
  - rewrite IH. simpl.
    pose proof (drain_expected_le fuel
      (set_expected_seq (expected_seq r + 1)
         (set_received_data (received_data r ++ p)
            (set_packet_buffer (delete (expected_seq r) (packet_buffer r)) r)))) as Hle.
    simpl in Hle.
    destruct (decide (k = expected_seq r)) as [->|Hne].
    + rewrite lookup_delete_eq. repeat case_decide; try done; lia.
    + rewrite lookup_delete_ne; [|done]. repeat case_decide; try done; lia.
  - case_decide; [lia|done].
Qed.

(** The loop has run to its end: the [while] test is false. *)
Lemma drain_finished fuel r :
  (size (packet_buffer r) ≤ fuel)%nat →
  packet_buffer (drain fuel r) !! expected_seq (drain fuel r) = None.
Proof.
  revert r. induction fuel as [|fuel IH]; intros r Hsz; simpl.
  - assert (packet_buffer r = ∅) as -> by (apply map_size_empty_inv; lia).
    apply lookup_empty.
  - destruct (packet_buffer r !! expected_seq r) as [p|] eqn:Hp; [|done].
    apply IH. simpl.
    rewrite map_size_delete_Some; [lia|by eexists].
Qed.

End drain_facts.

(** ** Eviction and [process_buffered_packets] *)

Lemma delete_all_lookup ks (m : gmap N bytes) k :
  delete_all ks m !! k = if decide (k ∈ ks) then None else m !! k.
Proof.
  unfold delete_all. revert m.
  induction ks as [|j ks IH]; intros m; [done|].
  change (foldl (λ acc k', delete k' acc) (delete j m) ks !! k =
          if decide (k ∈ j :: ks) then None else m !! k).
  rewrite IH. clear IH.
  destruct (decide (k ∈ ks)) as [Hin|Hnin].
  - rewrite decide_True; [done|by apply list_elem_of_further].
  - destruct (decide (k = j)) as [->|Hne].
    + rewrite lookup_delete_eq, decide_True; [done|by apply list_elem_of_here].
    + rewrite lookup_delete_ne, decide_False; [done| |done].
      intros [?|?]%elem_of_cons; done.
Qed.

Lemma delete_all_lookup_Some ks (m : gmap N bytes) k p :
  delete_all ks m !! k = Some p → m !! k = Some p.
Proof. rewrite delete_all_lookup. by case_decide. Qed.

Section process_facts.
Variable r : receiver.

Lemma process_file_size : file_size (process_buffered_packets r).1 = file_size r.
Proof.
  unfold process_buffered_packets. case_match; simpl; apply drain_file_size.
Qed.

Lemma process_total_packets :
  total_packets (process_buffered_packets r).1 = total_packets r.
Proof.
  unfold process_buffered_packets. case_match; simpl; apply drain_total_packets.
Qed.

Lemma process_credits_sent :
  credits_sent (process_buffered_packets r).1 = credits_sent r.
Proof.
  unfold process_buffered_packets. case_match; simpl; apply drain_credits_sent.
Qed.

Lemma process_complete :
  file_transfer_complete (process_buffered_packets r).1 = file_transfer_complete r.
Proof.
  unfold process_buffered_packets. case_match; simpl; apply drain_complete.
Qed.

Lemma process_expected_seq :
  expected_seq (process_buffered_packets r).1 =
    expected_seq (drain (size (packet_buffer r)) r).
Proof. unfold process_buffered_packets. by case_match. Qed.


(** Eviction only removes entries. *)
Lemma process_lookup_Some k p :
  packet_buffer (process_buffered_packets r).1 !! k = Some p →
  packet_buffer (drain (size (packet_buffer r)) r) !! k = Some p.
Proof.
  unfold process_buffered_packets. case_match; simpl; [|done].
  apply delete_all_lookup_Some.
Qed.

(** Without overflow the method is the draining loop alone. *)
Lemma process_no_overflow :
  (size (packet_buffer (drain (size (packet_buffer r)) r)) ≤ max_buffer_size)%nat →
  process_buffered_packets r = (drain (size (packet_buffer r)) r, []).
Proof.
  intros Hsz. unfold process_buffered_packets.
  case_match eqn:Hlt; [|done]. apply Nat.ltb_lt in Hlt. lia.
Qed.

End process_facts.

(** ** The buffer stays ahead of [expected_seq] *)

Lemma process_ahead r :
  (∀ k, is_Some (packet_buffer r !! k) → expected_seq r ≤ k) →
  ahead (process_buffered_packets r).1.
Proof.
  intros Hge k [p Hk]. rewrite process_expected_seq.
  apply process_lookup_Some in Hk.
  pose proof (drain_finished (size (packet_buffer r)) r (le_n _)) as Hfin.
  rewrite drain_lookup in Hk. case_decide as Hrange; [done|].
  assert (expected_seq r ≤ k) by (apply Hge; by eexists).
  assert (k ≠ expected_seq (drain (size (packet_buffer r)) r)).
  { intros ->. rewrite drain_lookup in Hfin. case_decide; congruence. }
  lia.
Qed.

Lemma foldl_min_le (k : N) ks :
  foldl N.min k ks ≤ k ∧ Forall (λ x, foldl N.min k ks ≤ x) ks.
Proof.
  revert k. induction ks as [|j ks IH]; intros k; simpl.
  { split; [lia|constructor]. }
  destruct (IH (N.min k j)) as [H1 H2]. split; [lia|].
  constructor; [lia|done].
Qed.

Lemma foldl_min_elem (k : N) ks : foldl N.min k ks ∈ k :: ks.
Proof.
  revert k. induction ks as [|j ks IH]; intros k; simpl.
  { apply list_elem_of_here. }
  specialize (IH (N.min k j)). apply elem_of_cons in IH as [Heq|IH].
  - rewrite Heq. destruct (N.min_spec k j) as [[_ ->]|[_ ->]].
    + apply list_elem_of_here.
    + apply list_elem_of_further, list_elem_of_here.
  - by do 2 apply list_elem_of_further.
Qed.

Lemma min_key_spec (m : gmap N bytes) k :
  min_key m = Some k →
  is_Some (m !! k) ∧ ∀ j, is_Some (m !! j) → k ≤ j.
Proof.
  unfold min_key. destruct (elements (dom m)) as [|x xs] eqn:Hel; [done|].
  intros [= <-]. split.
  - apply elem_of_dom, elem_of_elements. rewrite Hel. apply foldl_min_elem.
  - intros j Hj. apply elem_of_dom, elem_of_elements in Hj. rewrite Hel in Hj.
    destruct (foldl_min_le x xs) as [H1 H2].
    apply elem_of_cons in Hj as [->|Hj]; [done|].
    by eapply Forall_forall in H2.
Qed.


(** The head of a sorted list is its least element. *)
Lemma merge_sort_head (l : list N) x xs :
  merge_sort N.le l = x :: xs → x ∈ l ∧ ∀ y, y ∈ l → x ≤ y.
Proof.
  intros Hs.
  pose proof (merge_sort_Permutation N.le l) as Hperm.
  pose proof (StronglySorted_merge_sort N.le l) as Hsorted.
  rewrite Hs in Hperm, Hsorted. split.
  - rewrite <- Hperm. apply list_elem_of_here.
  - intros y Hy. rewrite <- Hperm in Hy.
    apply StronglySorted_inv in Hsorted as [_ Hall].
    apply elem_of_cons in Hy as [->|Hy]; [lia|].
    by eapply Forall_forall in Hall.
Qed.

(** ** Credits touch only the credit counter *)

Lemma send_credits_idle credits ok r :
  send_credits credits ok idle r =
    if 255 <? credits then (r, [CreditError])
    else if ok
    then (set_credits_sent (credits_sent r + credits) r, [CreditWrite credits])
    else (r, [CreditWrite credits; CreditError]).
Proof. unfold send_credits. case_match; [done|]. by destruct ok. Qed.

Section credit_cadence_facts.
Variables (ok : bool) (r : receiver).

Lemma credit_cadence_cases :
  (credit_cadence ok r).1 = r ∨
  (credit_cadence ok r).1 = set_credits_sent (credits_sent r + 2) r.
Proof.
  unfold credit_cadence. case_match; [|by left].
  rewrite send_credits_idle. simpl. destruct ok; [by right|by left].
Qed.

Lemma credit_cadence_received_data :
  received_data (credit_cadence ok r).1 = received_data r.
Proof. by destruct credit_cadence_cases as [->| ->]. Qed.

Lemma credit_cadence_expected_seq :
  expected_seq (credit_cadence ok r).1 = expected_seq r.
Proof. by destruct credit_cadence_cases as [->| ->]. Qed.

Lemma credit_cadence_packet_buffer :
  packet_buffer (credit_cadence ok r).1 = packet_buffer r.
Proof. by destruct credit_cadence_cases as [->| ->]. Qed.

Lemma credit_cadence_total_packets :
  total_packets (credit_cadence ok r).1 = total_packets r.
Proof. by destruct credit_cadence_cases as [->| ->]. Qed.

Lemma credit_cadence_file_size :
  file_size (credit_cadence ok r).1 = file_size r.
Proof. by destruct credit_cadence_cases as [->| ->]. Qed.

Lemma credit_cadence_complete :
  file_transfer_complete (credit_cadence ok r).1 = file_transfer_complete r.
Proof. by destruct credit_cadence_cases as [->| ->]. Qed.

Lemma credit_cadence_credits_sent :
  credits_sent r ≤ credits_sent (credit_cadence ok r).1.
Proof. destruct credit_cadence_cases as [->| ->]; simpl; lia. Qed.

End credit_cadence_facts.

(** ** Frame validation *)

Lemma payload_of_length data :
  length (payload_of data) =
    Nat.min (N.to_nat (length_field data)) (length data - 8).
Proof.
  unfold payload_of, slice. rewrite length_take, length_drop.
  replace (8 + N.to_nat (length_field data) - 8)%nat
    with (N.to_nat (length_field data)) by lia.
  done.
Qed.

Lemma crc16_ccitt_nil : crc16_ccitt [] = 0xFFFF.
Proof. reflexivity. Qed.

Lemma handler_validated ok data r :
  validated data →
  notification_handler ok data r =
    after_validation ok (seq_field data) (crc_field data) (payload_of data) r.
Proof.
  intros (Hlen & Heof & Hpay). unfold notification_handler.
  destruct (Nat.ltb_spec (length data) 8) as [?|_]; [lia|].
  destruct (N.eqb_spec (length_field data) 0) as [H0|H0];
    destruct (N.eqb_spec (crc_field data) 0) as [Hc|Hc]; simpl;
    try (exfalso; by apply Heof);
    by rewrite Hpay, N.eqb_refl.
Qed.

Lemma drain_received_prefix fuel r :
  ∃ rest, received_data (drain fuel r) = received_data r ++ rest.
Proof.
  revert r. induction fuel as [|fuel IH]; intros r; simpl.
  { exists []. by rewrite app_nil_r. }
  destruct (packet_buffer r !! expected_seq r) as [p|];
    [|exists []; by rewrite app_nil_r].
  edestruct IH as [rest ->]. simpl. exists (p ++ rest). by rewrite app_assoc.
Qed.



(** C7 (as the code has it): a frame shorter than 8 bytes, and a frame
    whose length field exceeds the number of bytes that follow the header,
    is discarded and the receiver is left exactly as it was: output
    stream, reorder buffer, [expected_seq], packet counter and credits
    included. *)
Theorem malformed_frame_discarded ok data r :
  (length data < 8)%nat ∨ N.of_nat (length data - 8) < length_field data →
  (notification_handler ok data r).1 = r ∧
  (notification_handler ok data r).2 =
    if (length data <? 8)%nat
    then [PacketTooShort (length data)]
    else [LengthMismatch (length_field data) (length data - 8)].
Proof.
  intros Hbad. unfold notification_handler.
  destruct (Nat.ltb_spec (length data) 8) as [?|Hlen]; [done|].
  destruct Hbad as [?|Hshort]; [lia|].
  pose proof (payload_of_length data) as Hpl.
  assert (length (payload_of data) = (length data - 8)%nat) as Hpay by lia.
  destruct (N.eqb_spec (length_field data) 0) as [H0|H0]; [lia|]. simpl.
  rewrite Hpay.
  destruct (N.eqb_spec (N.of_nat (length data - 8)) (length_field data)); [lia|done].
Qed.

Lemma malformed_frame_discarded_witness :
  (notification_handler true (raw_frame 0 3 0 [x41; x42]) (fresh 1000)).1 = fresh 1000 ∧
  (notification_handler true (raw_frame 0 3 0 [x41; x42]) (fresh 1000)).2 =
    if (length (raw_frame 0 3 0 [x41; x42]) <? 8)%nat
    then [PacketTooShort (length (raw_frame 0 3 0 [x41; x42]))]
    else [LengthMismatch (length_field (raw_frame 0 3 0 [x41; x42]))
            (length (raw_frame 0 3 0 [x41; x42]) - 8)].
Proof.
  apply malformed_frame_discarded. right. vm_compute. reflexivity.
Defined.

(** C7 fails as stated: a frame that declares 1 payload byte and carries 2
    is not rejected; its first trailing byte goes to the output and the
    packet counter moves. *)
Lemma overlong_frame_accepted :
  length_field (raw_frame 0 1 0 [x41; x42]) = 1 ∧
  length (drop 8 (raw_frame 0 1 0 [x41; x42])) = 2%nat ∧
  (notification_handler true (raw_frame 0 1 0 [x41; x42]) (fresh 1000)).1 =
    mkReceiver 1000 [x41] 1 1 0 false ∅.
Proof. repeat split; reflexivity. Qed.



(** ** The reorder buffer never falls behind *)

Lemma ahead_same r r' :
  expected_seq r' = expected_seq r →
  packet_buffer r' = packet_buffer r →
  ahead r → ahead r'.
Proof. unfold ahead. intros -> ->. done. Qed.

Lemma accept_in_order_ahead payload r :
  ahead r → ahead (accept_in_order payload r).1.
Proof.
  intros Hr. apply process_ahead. simpl. intros k Hk.
  specialize (Hr k Hk). lia.
Qed.

Lemma available_seqs_head r x xs :
  available_seqs r = x :: xs →
  is_Some (packet_buffer r !! x) ∧
  ∀ k, is_Some (packet_buffer r !! k) → expected_seq r ≤ k → x ≤ k.
Proof.
  unfold available_seqs. intros [Hin Hmin]%merge_sort_head.
  apply list_elem_of_filter in Hin as [_ Hin]. split.
  - by apply elem_of_dom, elem_of_elements.
  - intros k Hk Hge. apply Hmin, list_elem_of_filter. split; [done|].
    by apply elem_of_elements, elem_of_dom.
Qed.

Lemma buffer_out_of_order_ahead seq payload r :
  expected_seq r < seq → ahead r → ahead (buffer_out_of_order seq payload r).1.
Proof.
  intros Hseq Hr. unfold buffer_out_of_order.
  destruct (packet_buffer r !! seq) eqn:Hfree; [done|].
  set (r1 := set_packet_buffer (<[seq:=payload]> (packet_buffer r)) r).
  assert (ahead r1) as Hr1.
  { intros k Hk. simpl in *. destruct (decide (k = seq)) as [->|Hne]; [done|].
    rewrite lookup_insert_ne in Hk by done. by apply Hr. }
  case_match; [|done].
  destruct (available_seqs r1) as [|next rest] eqn:Hav; [done|].
  rewrite and_then_state. simpl.
  apply available_seqs_head in Hav as [_ Hmin].
  apply process_ahead. intros k Hk. simpl in Hk |- *.
  apply Hmin; [done|]. specialize (Hr1 k Hk). lia.
Qed.

Lemma after_validation_ahead ok seq crc payload r :
  ahead r → ahead (after_validation ok seq crc payload r).1.
Proof.
  intros Hr. unfold after_validation.
  set (r1 := set_total_packets (total_packets r + 1) r).
  assert (ahead r1) as Hr1 by (by apply (ahead_same r)).
  destruct (N.ltb_spec seq (expected_seq r1)) as [?|Hge]; [done|].
  rewrite !and_then_state. simpl.
  eapply ahead_same;
    [apply credit_cadence_expected_seq|apply credit_cadence_packet_buffer|].
  simpl in Hge.
  destruct (N.eqb_spec seq (expected_seq r)) as [?|Hne].
  - by apply accept_in_order_ahead.
  - apply buffer_out_of_order_ahead; [simpl; lia|done].
Qed.

Lemma notification_handler_ahead ok data r :
  ahead r → ahead (notification_handler ok data r).1.
Proof.
  intros Hr. unfold notification_handler.
  repeat case_match; try done.
  by apply after_validation_ahead.
Qed.

Lemma deliver_ahead ds r : ahead r → ahead (deliver ds r).1.
Proof.
  revert r. induction ds as [|d ds IH]; intros r Hr; [done|].
  simpl. rewrite and_then_state. by apply IH, notification_handler_ahead.
Qed.

Lemma stall_recovery_ahead r : ahead r → ahead (stall_recovery r).1.
Proof.
  intros Hr. unfold stall_recovery.
  destruct (min_key (packet_buffer r)) as [m|] eqn:Hmin; [|done].
  case_match; [|done]. rewrite and_then_state. simpl.
  apply min_key_spec in Hmin as [_ Hmin].
  apply process_ahead. simpl. done.
Qed.

Lemma send_credits_state credits ok during r :
  (send_credits credits ok during r).1 = r ∨
  (send_credits credits ok during r).1 = (during r).1 ∨
  (send_credits credits ok during r).1 =
    set_credits_sent (credits_sent (during r).1 + credits) (during r).1.
Proof.
  unfold send_credits. case_match; [by left|].
  rewrite !and_then_state. simpl. destruct ok; simpl; auto.
Qed.

Lemma stall_handling_ahead t r : ahead r → ahead (stall_handling t r).1.
Proof.
  intros Hr. unfold stall_handling. rewrite !and_then_state. simpl.
  apply stall_recovery_ahead.
  destruct (send_credits_state 32 (stall_write_ok t) (deliver (stall_arrivals t)) r)
    as [->|[->| ->]]; [done|by apply deliver_ahead|].
  eapply ahead_same; [| |by apply (deliver_ahead (stall_arrivals t))]; done.
Qed.

Lemma perform_all_ahead acts r : ahead r → ahead (perform_all acts r).1.
Proof.
  revert r. induction acts as [|a acts IH]; intros r Hr; [done|].
  simpl. rewrite and_then_state. apply IH.
  destruct a; [by apply notification_handler_ahead|by apply stall_handling_ahead].
Qed.

(** A stale frame changes neither buffer nor output nor [expected_seq]. *)
Lemma stale_frame_ignored ok data r :
  seq_field data < expected_seq r →
  packet_buffer (notification_handler ok data r).1 = packet_buffer r ∧
  received_data (notification_handler ok data r).1 = received_data r ∧
  expected_seq (notification_handler ok data r).1 = expected_seq r.
Proof.
  intros Hstale. unfold notification_handler.
  repeat case_match; try done.
  unfold after_validation. simpl.
  destruct (N.ltb_spec (seq_field data) (expected_seq r)); [done|lia].
Qed.

(** C9: after any sequence of handler invocations and stall-recovery
    actions on a freshly reset session, no buffered key is below
    [expected_seq]; and in any state a frame whose sequence number is below
    [expected_seq] is dropped without touching buffer, output or
    [expected_seq]. *)
Theorem buffer_never_behind size acts r0 ok data :
  let r := (perform_all acts (fresh size)).1 in
  (∀ k, is_Some (packet_buffer r !! k) → expected_seq r ≤ k) ∧
  (seq_field data < expected_seq r0 →
   packet_buffer (notification_handler ok data r0).1 = packet_buffer r0 ∧
   received_data (notification_handler ok data r0).1 = received_data r0 ∧
   expected_seq (notification_handler ok data r0).1 = expected_seq r0).
Proof.
  split.
  - intros k Hk.
    assert (ahead (perform_all acts (fresh size)).1) as Hahead.
    { apply perform_all_ahead. intros j [? Hj]. simpl in Hj.
      by rewrite lookup_empty in Hj. }
    specialize (Hahead k Hk). lia.
  - apply stale_frame_ignored.
Qed.

Lemma buffer_never_behind_witness :
  let r0 := (deliver [mkDelivery (data_frame 0 [x41]) true;
                      mkDelivery (data_frame 1 [x42]) true] (fresh 1000)).1 in
  let r := (perform_all [Notification (mkDelivery (data_frame 2 [x41]) true)]
              (fresh 1000)).1 in
  (∀ k, is_Some (packet_buffer r !! k) → expected_seq r ≤ k) ∧
  (packet_buffer (notification_handler true (data_frame 0 [x41]) r0).1 = packet_buffer r0 ∧
   received_data (notification_handler true (data_frame 0 [x41]) r0).1 = received_data r0 ∧
   expected_seq (notification_handler true (data_frame 0 [x41]) r0).1 = expected_seq r0).
Proof.
  intros r0 r.
  destruct (buffer_never_behind 1000
              [Notification (mkDelivery (data_frame 2 [x41]) true)]
              r0 true (data_frame 0 [x41])) as [Hinv Hstale].
  split; [exact Hinv|]. apply Hstale. vm_compute. reflexivity.
Defined.

(** ** Reassembly *)

Lemma arrived_snoc ps s p k :
  arrived (ps ++ [(s, p)]) k =
    match arrived ps k with
    | Some q => Some q
    | None => if s =? k then Some p else None
    end.
Proof.
  induction ps as [|[s' p'] ps IH]; simpl; [done|].
  by destruct (s' =? k).
Qed.

Lemma arrived_Some_elem ps k p : arrived ps k = Some p → (k, p) ∈ ps.
Proof.
  induction ps as [|[s' p'] ps IH]; simpl; [done|].
  destruct (N.eqb_spec s' k) as [->|_].
  - intros [= ->]. apply list_elem_of_here.
  - intros H. by apply list_elem_of_further, IH.
Qed.

Lemma elem_arrived ps k p : (k, p) ∈ ps → is_Some (arrived ps k).
Proof.
  induction ps as [|[s' p'] ps IH]; simpl.
  { by intros ?%elem_of_nil. }
  intros [[= -> ->]|Hin]%elem_of_cons.
  - rewrite N.eqb_refl. by eexists.
  - destruct (s' =? k); [by eexists|by apply IH].
Qed.

Lemma arrived_consistent ps k p :
  consistent ps → (k, p) ∈ ps → arrived ps k = Some p.
Proof.
  intros Hc Hin. destruct (elem_arrived _ _ _ Hin) as [q Hq].
  rewrite Hq. f_equal. eapply Hc; [|done]. by apply arrived_Some_elem.
Qed.

Lemma arrived_Permutation ps ps' k :
  ps' ≡ₚ ps → consistent ps → arrived ps' k = arrived ps k.
Proof.
  intros Hperm Hc.
  assert (consistent ps') as Hc'.
  { intros s p q Hp Hq. rewrite Hperm in Hp, Hq. by eapply Hc. }
  destruct (arrived ps k) as [p|] eqn:Hk.
  - apply arrived_consistent; [done|]. rewrite Hperm. by apply arrived_Some_elem.
  - destruct (arrived ps' k) as [p|] eqn:Hk'; [|done].
    apply arrived_Some_elem in Hk'. rewrite Hperm in Hk'.
    apply elem_arrived in Hk'. rewrite Hk in Hk'. by destruct Hk'.
Qed.

Lemma stream_app f start n m :
  stream f start (n + m) = stream f start n ++ stream f (start + N.of_nat n) m.
Proof.
  revert start. induction n as [|n IH]; intros start; simpl.
  { by rewrite N.add_0_r. }
  rewrite IH, <- app_assoc. do 3 f_equal. lia.
Qed.

Lemma stream_ext f g start n :
  (∀ k, start ≤ k < start + N.of_nat n → f k = g k) →
  stream f start n = stream g start n.
Proof.
  revert start. induction n as [|n IH]; intros start Hfg; simpl; [done|].
  rewrite Hfg by lia. f_equal. apply IH. intros k Hk. apply Hfg. lia.
Qed.

(** A map whose keys all lie in [(lo, lo + n]] has at most [n] entries. *)
Lemma size_bounded_range (m : gmap N bytes) (lo : N) (n : nat) :
  (∀ k, is_Some (m !! k) → lo < k ≤ lo + N.of_nat n) → (size m ≤ n)%nat.
Proof.
  revert m. induction n as [|n IH]; intros m Hm.
  - assert (m = ∅) as ->; [|by rewrite map_size_empty].
    apply map_empty. intros k. apply eq_None_not_Some. intros Hk.
    specialize (Hm k Hk). lia.
  - pose (top := lo + N.of_nat (S n)).
    assert (size (delete top m) ≤ n)%nat as Hdel.
    { apply IH. intros k Hk.
      destruct (decide (k = top)) as [->|Hne].
      - rewrite lookup_delete_eq in Hk. by destruct Hk.
      - rewrite lookup_delete_ne in Hk by done. specialize (Hm k Hk).
        unfold top in Hne. lia. }
    rewrite map_size_delete in Hdel.
    destruct (m !! top); simpl in Hdel; unfold id in *; lia.
Qed.

(** The output the draining loop appends, and the keys it pops. *)
Lemma drain_received_data fuel r :
  received_data (drain fuel r) =
    received_data r ++
    stream (λ k, packet_buffer r !! k) (expected_seq r)
      (N.to_nat (expected_seq (drain fuel r) - expected_seq r)).
Proof.
  revert r. induction fuel as [|fuel IH]; intros r; simpl.
  { rewrite N.sub_diag. simpl. by rewrite app_nil_r. }
  destruct (packet_buffer r !! expected_seq r) as [p|] eqn:Hp.
  - set (r' := set_expected_seq _ _).
    pose proof (drain_expected_le fuel r') as Hle. simpl in Hle.
    rewrite IH. simpl.
    replace (N.to_nat (expected_seq (drain fuel r') - expected_seq r))
      with (S (N.to_nat (expected_seq (drain fuel r') - (expected_seq r + 1))))
      by lia.
    simpl. rewrite Hp. simpl. rewrite <- app_assoc. do 2 f_equal.
    rewrite N.add_1_r. apply stream_ext. intros k Hk.
    rewrite lookup_delete_ne; [done|lia].
  - rewrite N.sub_diag. simpl. by rewrite app_nil_r.
Qed.

Lemma drain_popped fuel r k :
  expected_seq r ≤ k < expected_seq (drain fuel r) →
  is_Some (packet_buffer r !! k).
Proof.
  revert r. induction fuel as [|fuel IH]; intros r; simpl; [lia|].
  destruct (packet_buffer r !! expected_seq r) as [p|] eqn:Hp; [|lia].
  intros Hk. destruct (decide (k = expected_seq r)) as [->|Hne]; [by eexists|].
  set (r' := set_expected_seq _ _) in *.
  specialize (IH r'). simpl in IH.
  rewrite lookup_delete_ne in IH by done. apply IH. lia.
Qed.

Lemma reassembled_fresh size : reassembled [] (fresh size).
Proof.
  split; simpl.
  - intros k Hk. lia.
  - done.
  - intros k. rewrite lookup_empty. by case_decide.
  - done.
  - intros k [? Hk]. by rewrite lookup_empty in Hk.
Qed.

Lemma reassembled_same seen r r' :
  expected_seq r' = expected_seq r →
  packet_buffer r' = packet_buffer r →
  received_data r' = received_data r →
  reassembled seen r → reassembled seen r'.
Proof. intros He Hb Hd [? ? ? ? ?]. split; rewrite ?He, ?Hb, ?Hd; done. Qed.

Lemma reassembled_ext seen seen' r :
  (∀ k, arrived seen' k = arrived seen k) →
  reassembled seen r → reassembled seen' r.
Proof.
  intros Hext [Hbefore Hmiss Hbuf Hout Hwin]. split; try done.
  - intros k Hk. rewrite Hext. auto.
  - by rewrite Hext.
  - intros k. rewrite Hext. auto.
  - rewrite Hout. apply stream_ext. intros k _. by rewrite Hext.
Qed.

Lemma arrived_snoc_present seen s p k :
  is_Some (arrived seen s) → arrived (seen ++ [(s, p)]) k = arrived seen k.
Proof.
  intros [q Hq]. rewrite arrived_snoc.
  destruct (arrived seen k) eqn:Hk; [done|].
  destruct (N.eqb_spec s k) as [->|_]; [congruence|done].
Qed.

Lemma arrived_snoc_new seen s p k :
  arrived seen s = None →
  arrived (seen ++ [(s, p)]) k = if decide (k = s) then Some p else arrived seen k.
Proof.
  intros Hs. rewrite arrived_snoc.
  destruct (N.eqb_spec s k) as [->|Hne].
  - rewrite Hs. by rewrite decide_True.
  - rewrite decide_False by done. by destruct (arrived seen k).
Qed.

Lemma reassembled_size seen r :
  reassembled seen r → (size (packet_buffer r) ≤ 50)%nat.
Proof.
  intros Hr. apply (size_bounded_range _ (expected_seq r)). intros k Hk.
  split; [|by apply (re_window _ _ Hr)].
  destruct Hk as [q Hk]. rewrite (re_buffer _ _ Hr) in Hk. by case_decide.
Qed.

Lemma accept_in_order_reassembled seen p r :
  reassembled seen r →
  reassembled (seen ++ [(expected_seq r, p)]) (accept_in_order p r).1.
Proof.
  intros Hr. unfold accept_in_order.
  set (ra := set_expected_seq (expected_seq r + 1)
               (set_received_data (received_data r ++ p) r)).
  set (D := drain (size (packet_buffer ra)) ra).
  pose proof (drain_expected_le (size (packet_buffer ra)) ra) as Hle.
  pose proof (drain_lookup (size (packet_buffer ra)) ra) as Hlk.
  pose proof (drain_finished (size (packet_buffer ra)) ra (le_n _)) as Hfin.
  pose proof (drain_popped (size (packet_buffer ra)) ra) as Hpop.
  pose proof (drain_received_data (size (packet_buffer ra)) ra) as Hdata.
  fold D in Hle, Hlk, Hfin, Hpop, Hdata. simpl in Hle, Hlk, Hpop, Hdata.
  pose proof (re_buffer _ _ Hr) as Hbuf.
  pose proof (re_missing _ _ Hr) as Hmiss.
  assert (∀ k, arrived (seen ++ [(expected_seq r, p)]) k =
               if decide (k = expected_seq r) then Some p else arrived seen k)
    as Harr by (intros k; by apply arrived_snoc_new).
  assert (packet_buffer r !! expected_seq D = None) as Hnext.
  { rewrite Hlk in Hfin. case_decide; [lia|done]. }
  assert (∀ k, is_Some (packet_buffer D !! k) → is_Some (packet_buffer r !! k))
    as Hsub.
  { intros k Hk. rewrite Hlk in Hk. case_decide; [by destruct Hk|done]. }
  rewrite process_no_overflow; fold D.
  2:{ apply (Nat.le_trans _ 50); [|unfold max_buffer_size; lia].
      apply (size_bounded_range _ (expected_seq r)). intros k Hk.
      apply Hsub in Hk. split; [|by apply (re_window _ _ Hr)].
      destruct Hk as [q Hk]. rewrite Hbuf in Hk. by case_decide. }
  simpl. split.
  - intros k Hk. rewrite Harr. case_decide; [by eexists|].
    destruct (decide (k < expected_seq r)) as [?|?]; [by apply (re_before _ _ Hr)|].
    assert (is_Some (packet_buffer r !! k)) as Hk' by (apply Hpop; lia).
    rewrite Hbuf in Hk'. by case_decide.
  - rewrite Harr, decide_False by lia.
    rewrite Hbuf in Hnext. case_decide; [done|lia].
  - intros k. rewrite Hlk, Harr, Hbuf.
    repeat case_decide; try done; try lia.
    assert (k = expected_seq D) as -> by lia.
    rewrite Hbuf in Hnext. by case_decide.
  - rewrite Hdata, (re_output _ _ Hr).
    replace (N.to_nat (expected_seq D))
      with (N.to_nat (expected_seq r) +
            S (N.to_nat (expected_seq D - (expected_seq r + 1))))%nat by lia.
    rewrite stream_app. simpl. rewrite <- !app_assoc. f_equal.
    { apply stream_ext. intros k Hk. rewrite Harr, decide_False; [done|lia]. }
    rewrite N2Nat.id, Harr, decide_True by done. simpl. f_equal.
    rewrite N.add_1_r. apply stream_ext. intros k Hk.
    rewrite Harr, decide_False by lia. rewrite Hbuf, decide_True; [done|lia].
  - intros k Hk. apply Hsub in Hk. pose proof (re_window _ _ Hr k Hk). lia.
Qed.

Lemma buffer_out_of_order_reassembled seen s p r :
  reassembled seen r →
  expected_seq r < s →
  s ≤ expected_seq r + 50 →
  reassembled (seen ++ [(s, p)]) (buffer_out_of_order s p r).1.
Proof.
  intros Hr Hlt Hwin. unfold buffer_out_of_order.
  pose proof (re_buffer _ _ Hr) as Hbuf.
  pose proof (Hbuf s) as Hs. rewrite decide_True in Hs by done.
  destruct (packet_buffer r !! s) as [q|] eqn:Hq.
  - simpl. apply (reassembled_ext seen); [|done].
    intros k. apply arrived_snoc_present. rewrite <- Hs. by eexists.
  - simpl (expected_seq _).
    destruct (N.ltb_spec 50 (s - expected_seq r)) as [?|_]; [lia|]. simpl.
    assert (∀ k, arrived (seen ++ [(s, p)]) k =
                 if decide (k = s) then Some p else arrived seen k)
      as Harr by (intros k; by apply arrived_snoc_new).
    split; simpl.
    + intros k Hk. rewrite Harr, decide_False by lia. by apply (re_before _ _ Hr).
    + rewrite Harr, decide_False by lia. apply (re_missing _ _ Hr).
    + intros k. rewrite Harr. destruct (decide (k = s)) as [->|Hne].
      * by rewrite lookup_insert_eq, decide_True.
      * by rewrite lookup_insert_ne.
    + rewrite (re_output _ _ Hr). apply stream_ext. intros k Hk.
      rewrite Harr, decide_False; [done|lia].
    + intros k Hk. destruct (decide (k = s)) as [->|Hne]; [done|].
      rewrite lookup_insert_ne in Hk by done. by apply (re_window _ _ Hr).
Qed.

Lemma after_validation_reassembled ok s crc p seen r :
  reassembled seen r →
  s ≤ expected_seq r + 50 →
  reassembled (seen ++ [(s, p)]) (after_validation ok s crc p r).1.
Proof.
  intros Hr Hwin. unfold after_validation.
  set (r1 := set_total_packets (total_packets r + 1) r).
  assert (reassembled seen r1) as Hr1 by (by apply (reassembled_same seen r)).
  destruct (N.ltb_spec s (expected_seq r1)) as [Hstale|Hge].
  - simpl. apply (reassembled_ext seen); [|done].
    intros k. apply arrived_snoc_present. by apply (re_before _ _ Hr).
  - rewrite !and_then_state. simpl. simpl in Hge.
    eapply reassembled_same;
      [apply credit_cadence_expected_seq|apply credit_cadence_packet_buffer
      |apply credit_cadence_received_data|].
    destruct (N.eqb_spec s (expected_seq r)) as [->|Hne].
    + exact (accept_in_order_reassembled seen p r1 Hr1).
    + apply buffer_out_of_order_reassembled; simpl; [done|lia|lia].
Qed.

Lemma handler_packet ok data r s p :
  packet_of data = Some (s, p) →
  notification_handler ok data r = after_validation ok s (crc_field data) p r.
Proof.
  unfold packet_of, notification_handler.
  repeat case_match; try done. by intros [= <- <-].
Qed.

Lemma handler_not_packet ok data r :
  packet_of data = None →
  expected_seq (notification_handler ok data r).1 = expected_seq r ∧
  packet_buffer (notification_handler ok data r).1 = packet_buffer r ∧
  received_data (notification_handler ok data r).1 = received_data r.
Proof.
  unfold packet_of, notification_handler.
  repeat case_match; try done.
Qed.

Lemma packets_cons d ds :
  packets (d :: ds) =
    match packet_of (frame d) with
    | Some x => x :: packets ds
    | None => packets ds
    end.
Proof. reflexivity. Qed.

Lemma deliver_reassembled ds seen r :
  reassembled seen r →
  in_window ds r = true →
  reassembled (seen ++ packets ds) (deliver ds r).1.
Proof.
  revert seen r. induction ds as [|d ds IH]; intros seen r Hr Hwin.
  { simpl. by rewrite app_nil_r. }
  simpl in Hwin. apply andb_true_iff in Hwin as [Hd Hrest].
  simpl deliver. rewrite and_then_state, packets_cons.
  destruct (packet_of (frame d)) as [[s p]|] eqn:Hpk.
  - replace (seen ++ (s, p) :: packets ds) with ((seen ++ [(s, p)]) ++ packets ds)
      by (by rewrite <- app_assoc).
    apply IH; [|done]. rewrite (handler_packet _ _ _ _ _ Hpk).
    apply after_validation_reassembled; [done|]. by apply N.leb_le.
  - apply IH; [|done].
    destruct (handler_not_packet (credit_ok d) (frame d) r Hpk) as (He & Hb & Hdt).
    by apply (reassembled_same seen r).
Qed.

(** C1 (as the code has it): when no packet arrives more than 50 sequence
    numbers ahead of the one expected at that moment, the output of a
    freshly reset session is the concatenation, in ascending order, of the
    payloads of sequence numbers 0, ..., n-1, where n = [expected_seq] is
    the least sequence number that has not arrived (for a sequence number
    received more than once, the payload of its first arrival).  Two such
    runs on the same packets in different orders, each sequence number
    carrying one payload, end with the same output. *)
Theorem reassembly_in_window size ds ds' :
  let r := (deliver ds (fresh size)).1 in
  let r' := (deliver ds' (fresh size)).1 in
  in_window ds (fresh size) = true →
  ((∀ k, k < expected_seq r → is_Some (arrived (packets ds) k)) ∧
   arrived (packets ds) (expected_seq r) = None ∧
   received_data r =
     stream (arrived (packets ds)) 0 (N.to_nat (expected_seq r))) ∧
  (in_window ds' (fresh size) = true →
   packets ds' ≡ₚ packets ds →
   consistent (packets ds) →
   received_data r' = received_data r ∧ expected_seq r' = expected_seq r).
Proof.
  intros r r' Hwin.
  pose proof (deliver_reassembled ds [] (fresh size) (reassembled_fresh size) Hwin)
    as Hr. simpl in Hr. fold r in Hr.
  split.
  { split; [apply (re_before _ _ Hr)|].
    split; [apply (re_missing _ _ Hr)|apply (re_output _ _ Hr)]. }
  intros Hwin' Hperm Hcons.
  pose proof (deliver_reassembled ds' [] (fresh size) (reassembled_fresh size) Hwin')
    as Hr'. simpl in Hr'. fold r' in Hr'.
  assert (∀ k, arrived (packets ds') k = arrived (packets ds) k) as Hsame
    by (intros k; by apply arrived_Permutation).
  assert (expected_seq r' = expected_seq r) as Heq.
  { destruct (N.lt_trichotomy (expected_seq r') (expected_seq r)) as [Hlt|[?|Hlt]];
      [|done|].
    - pose proof (re_before _ _ Hr _ Hlt) as [q Hq].
      rewrite <- Hsame, (re_missing _ _ Hr') in Hq. done.
    - pose proof (re_before _ _ Hr' _ Hlt) as [q Hq].
      rewrite Hsame, (re_missing _ _ Hr) in Hq. done. }
  split; [|done].
  rewrite (re_output _ _ Hr), (re_output _ _ Hr'), Heq.
  apply stream_ext. intros k _. apply Hsame.
Qed.

Lemma reassembly_in_window_witness :
  let r := (deliver arrival_1_0_2 (fresh 1000)).1 in
  let r' := (deliver arrival_0_1_2 (fresh 1000)).1 in
  ((∀ k, k < expected_seq r → is_Some (arrived (packets arrival_1_0_2) k)) ∧
   arrived (packets arrival_1_0_2) (expected_seq r) = None ∧
   received_data r =
     stream (arrived (packets arrival_1_0_2)) 0 (N.to_nat (expected_seq r))) ∧
  (received_data r' = received_data r ∧ expected_seq r' = expected_seq r).
Proof.
  intros r r'.
  destruct (reassembly_in_window 1000 arrival_1_0_2 arrival_0_1_2 eq_refl)
    as [Hprefix Horder].
  split; [exact Hprefix|]. apply Horder.
  - reflexivity.
  - apply perm_swap.
  - intros s p q Hp Hq. vm_compute in Hp, Hq.
    repeat (apply elem_of_cons in Hp as [Hp|Hp]);
      repeat (apply elem_of_cons in Hq as [Hq|Hq]);
      try (by apply elem_of_nil in Hp); try (by apply elem_of_nil in Hq);
      congruence.
Defined.

(** C1 fails as stated: a single packet with sequence number 51 is written
    to the output although sequence number 0 never arrived. *)
Lemma large_gap_breaks_prefix :
  arrived (packets [mkDelivery (data_frame 51 [x41]) true]) 0 = None ∧
  received_data (deliver [mkDelivery (data_frame 51 [x41]) true] (fresh 1000)).1
    = [x41] ∧
  expected_seq (deliver [mkDelivery (data_frame 51 [x41]) true] (fresh 1000)).1
    = 52.
Proof. repeat split; reflexivity. Qed.

(** ** What a session never undoes *)

Lemma extends_refl r : extends r r.
Proof. split; try done; lia. Qed.

Lemma extends_trans r1 r2 r3 : extends r1 r2 → extends r2 r3 → extends r1 r3.
Proof.
  intros [H1 H2 H3 H4] [G1 G2 G3 G4]. split.
  - congruence.
  - by etrans.
  - lia.
  - lia.
Qed.

Lemma orderly_and_then f g : orderly f → orderly g → orderly (f >>> g).
Proof.
  intros Hf Hg r. rewrite and_then_state, and_then_events.
  destruct (Hf r) as [Hf1 Hf2]. destruct (Hg (f r).1) as [Hg1 Hg2].
  split; [by eapply extends_trans|].
  rewrite forallb_app. by rewrite Hf2, Hg2.
Qed.

Lemma orderly_say es :
  forallb (λ e, negb (is_stop e)) es = true → orderly (say es).
Proof. intros Hes r. split; [apply extends_refl|done]. Qed.

Lemma orderly_idle : orderly idle.
Proof. by apply orderly_say. Qed.

Lemma orderly_send_credits credits ok during :
  orderly during → orderly (send_credits credits ok during).
Proof.
  intros Hd. unfold send_credits. case_match; [by apply orderly_say|].
  apply orderly_and_then; [by apply orderly_say|].
  apply orderly_and_then; [done|].
  intros r. destruct ok; simpl; (split; [|done]).
  - split; simpl; try done; lia.
  - apply extends_refl.
Qed.

Lemma drain_extends fuel r : extends r (drain fuel r).
Proof.
  split.
  - apply drain_file_size.
  - destruct (drain_received_prefix fuel r) as [rest ->]. by exists rest.
  - by rewrite drain_total_packets.
  - by rewrite drain_credits_sent.
Qed.

Lemma forallb_dropped ks :
  forallb (λ e, negb (is_stop e)) (DroppedOld <$> ks) = true.
Proof. by induction ks. Qed.

Lemma orderly_process : orderly process_buffered_packets.
Proof.
  intros r. unfold process_buffered_packets. case_match; simpl.
  - split; [|apply forallb_dropped].
    eapply extends_trans; [apply drain_extends|].
    split; simpl; try done; lia.
  - split; [apply drain_extends|done].
Qed.

Lemma orderly_accept_in_order payload : orderly (accept_in_order payload).
Proof.
  intros r. unfold accept_in_order.
  destruct (orderly_process
              (set_expected_seq (expected_seq r + 1)
                 (set_received_data (received_data r ++ payload) r))) as [H1 H2].
  split; [|done]. eapply extends_trans; [|exact H1].
  split; simpl; try done; try lia. by exists payload.
Qed.

Lemma orderly_buffer_out_of_order seq payload :
  orderly (buffer_out_of_order seq payload).
Proof.
  intros r. unfold buffer_out_of_order.
  destruct (packet_buffer r !! seq); [split; [apply extends_refl|done]|].
  set (r1 := set_packet_buffer _ r).
  assert (extends r r1) as Hr1 by (split; simpl; try done; lia).
  case_match; [|done].
  destruct (available_seqs r1) as [|next rest]; [done|].
  rewrite and_then_state, and_then_events. simpl.
  destruct (orderly_process (set_expected_seq next r1)) as [H1 H2].
  split; [|done]. eapply extends_trans; [exact Hr1|].
  eapply extends_trans; [|exact H1]. split; simpl; try done; lia.
Qed.

Lemma orderly_credit_cadence ok : orderly (credit_cadence ok).
Proof.
  intros r. unfold credit_cadence. case_match.
  - apply orderly_send_credits, orderly_idle.
  - split; [apply extends_refl|done].
Qed.

Lemma orderly_after_validation ok seq crc payload :
  orderly (after_validation ok seq crc payload).
Proof.
  intros r. unfold after_validation.
  set (r1 := set_total_packets (total_packets r + 1) r).
  assert (extends r r1) as Hr1 by (split; simpl; try done; lia).
  set (note := if negb (crc =? crc16_ccitt payload) then _ else _).
  assert (forallb (λ e, negb (is_stop e)) note = true) as Hnote
    by (unfold note; by case_match).
  case_match; [done|].
  assert (orderly (say note >>>
            (if seq =? expected_seq r1
             then accept_in_order payload
             else buffer_out_of_order seq payload) >>>
            credit_cadence ok)) as Hrest.
  { apply orderly_and_then; [by apply orderly_say|].
    apply orderly_and_then; [|apply orderly_credit_cadence].
    case_match; [apply orderly_accept_in_order|apply orderly_buffer_out_of_order]. }
  destruct (Hrest r1) as [H1 H2]. split; [|done].
  by eapply extends_trans.
Qed.

Lemma orderly_notification_handler ok data : orderly (notification_handler ok data).
Proof.
  intros r. unfold notification_handler.
  repeat case_match; try (split; [apply extends_refl|done]).
  - split; [|done]. split; simpl; try done; lia.
  - apply orderly_after_validation.
Qed.

Lemma orderly_deliver ds : orderly (deliver ds).
Proof.
  induction ds as [|d ds IH]; [apply orderly_idle|].
  simpl. apply orderly_and_then; [apply orderly_notification_handler|done].
Qed.

Lemma orderly_stall_recovery : orderly stall_recovery.
Proof.
  intros r. unfold stall_recovery.
  destruct (min_key (packet_buffer r)) as [m|]; [|split; [apply extends_refl|done]].
  case_match; [|split; [apply extends_refl|done]].
  rewrite and_then_state, and_then_events. simpl.
  destruct (orderly_process (set_expected_seq m r)) as [H1 H2].
  split; [|done]. eapply extends_trans; [|exact H1].
  split; simpl; try done; lia.
Qed.

Lemma orderly_stall_handling t : orderly (stall_handling t).
Proof.
  intros r. unfold stall_handling.
  apply orderly_and_then; [by apply orderly_say|].
  apply orderly_and_then; [|apply orderly_stall_recovery].
  apply orderly_send_credits, orderly_deliver.
Qed.

(** ** The driving loop *)

Lemma no_stop_calls es : no_stop es → stop_notify_calls es = 0%nat.
Proof.
  unfold stop_notify_calls. induction es as [|e es IH]; simpl; [done|].
  intros [He Hes]%andb_true_iff. destruct (is_stop e); [done|by apply IH].
Qed.

Lemma stop_notify_calls_app es es' :
  stop_notify_calls (es ++ es') = (stop_notify_calls es + stop_notify_calls es')%nat.
Proof. unfold stop_notify_calls. by rewrite List.filter_app, length_app. Qed.

Lemma stall_check_orderly t v r :
  extends r (stall_check t v r).1.1 ∧ no_stop (stall_check t v r).1.2.
Proof.
  unfold stall_check. repeat case_match; simpl;
    try (split; [apply extends_refl|done]).
  apply orderly_stall_handling.
Qed.

Lemma loop_body_orderly t v r :
  extends r (loop_body t v r).1.1 ∧ no_stop (loop_body t v r).1.2.
Proof.
  unfold loop_body.
  destruct (orderly_deliver (arrivals t) r) as [H1 H2].
  destruct (deliver (arrivals t) r) as [r1 e1]. simpl in H1, H2.
  case_match; [done|].
  destruct (stall_check_orderly t v r1) as [H3 H4].
  destruct (stall_check t v r1) as [[r2 e2] next]. simpl in H3, H4.
  assert (extends r r2) by (by eapply extends_trans).
  destruct next as [v'|x]; [case_match|]; simpl; split; try done;
    rewrite !forallb_app, ?H2, ?H4; done.
Qed.

Lemma download_loop_orderly ts v r :
  extends r (download_loop ts v r).1.1 ∧ no_stop (download_loop ts v r).1.2.
Proof.
  revert v r. induction ts as [|t ts IH]; intros v r; simpl.
  { case_match; simpl; (split; [apply extends_refl|done]). }
  case_match; [|split; [apply extends_refl|done]].
  destruct (loop_body_orderly t v r) as [H1 H2].
  destruct (loop_body t v r) as [[r1 e1] [v'|x]]; simpl in H1, H2; [|done].
  destruct (IH v' r1) as [H3 H4].
  destruct (download_loop ts v' r1) as [[r2 e2] x]. simpl in *.
  split; [by eapply extends_trans|]. by rewrite forallb_app, H2, H4.
Qed.

(** The 60-second return is taken only with an empty output. *)
Lemma loop_body_timeout_empty t v r :
  (loop_body t v r).2 = inr ReturnTimeout →
  received_data (loop_body t v r).1.1 = [] ∧ 60000 < elapsed_ms t.
Proof.
  unfold loop_body. destruct (deliver (arrivals t) r) as [r1 e1].
  case_match; [done|].
  destruct (stall_check t v r1) as [[r2 e2] [v'|x]] eqn:Hsc.
  - destruct (N.ltb_spec 60000 (elapsed_ms t)) as [Hlate|?]; simpl; [|done].
    destruct (Nat.eqb_spec (length (received_data r2)) 0) as [Hlen|?]; simpl; [|done].
    intros _. split; [by apply length_zero_iff_nil|done].
  - simpl. intros [= ->]. unfold stall_check in Hsc.
    repeat case_match; simplify_eq.
Qed.

Lemma download_loop_timeout_empty ts v r :
  (download_loop ts v r).2 = Some ReturnTimeout →
  received_data (download_loop ts v r).1.1 = [].
Proof.
  revert v r. induction ts as [|t ts IH]; intros v r; simpl.
  { by case_match. }
  case_match; [|done].
  pose proof (loop_body_timeout_empty t v r) as Hbody.
  destruct (loop_body t v r) as [[r1 e1] [v'|x]]; simpl in *.
  - specialize (IH v' r1).
    destruct (download_loop ts v' r1) as [[r2 e2] x]. simpl in *. done.
  - intros [= ->]. by apply Hbody.
Qed.

Lemma deliver_file_size ds r : file_size (deliver ds r).1 = file_size r.
Proof. by destruct (orderly_deliver ds r) as [[? _ _ _] _]. Qed.

(** C3: the session in which no frame arrives for 60.5 s ends as TimedOut
    and [stop_notify] has not been called: the [return False] of the
    timeout check leaves the loop and the method at once, past the
    [stop_notify] that the other exits reach. *)
Theorem timeout_skips_stop_notify :
  (download_file silent_session (fresh 1000)).2 = Some TimedOut ∧
  stop_notify_calls (download_file silent_session (fresh 1000)).1.2 = 0%nat.
Proof. split; vm_compute; reflexivity. Qed.

(** How often [stop_notify] is called, by outcome: once when the loop is
    left normally (also when the call itself then fails), never on the
    timeout, on a failed subscription, or while the loop still runs. *)
Theorem stop_notify_by_outcome env r :
  stop_notify_calls (download_file env r).1.2 =
    match (download_file env r).2 with
    | Some Complete | Some AcceptedIncomplete => 1%nat
    | Some TimedOut => 0%nat
    | Some Aborted => if start_ok env then 1%nat else 0%nat
    | None => 0%nat
    end.
Proof.
  unfold download_file. destruct (start_ok env); simpl; [|done].
  destruct (orderly_send_credits 64 (initial_write_ok env) _
              (orderly_deliver (initial_arrivals env)) (reset r)) as [_ H1].
  destruct (send_credits 64 _ _ (reset r)) as [r1 e1]. simpl in H1.
  destruct (download_loop_orderly (ticks env) (mkVars 0 0) r1) as [_ H2].
  destruct (download_loop (ticks env) (mkVars 0 0) r1) as [[r2 e2] x].
  simpl in H2.
  assert (stop_notify_calls (StartNotify :: e1 ++ e2) = 0%nat) as Hquiet.
  { apply no_stop_calls. simpl. by rewrite forallb_app, H1, H2. }
  destruct x as [[| | |]|]; simpl; try done;
    destruct (stop_ok env); simpl;
    change (StartNotify :: (e1 ++ e2) ++ ?l) with ((StartNotify :: e1 ++ e2) ++ l);
    rewrite stop_notify_calls_app, Hquiet; done.
Qed.

(** C5 (as the code has it): a pass of the driving loop that finds more
    than 60 s elapsed, no end marker received and the output still empty
    makes [download_file] return failure; a session that ends as TimedOut
    has an empty output; a session whose output holds a byte is never
    timed out. *)
Theorem hard_timeout env r t ts v r0 ts' v' r' :
  ((download_file env r).2 = Some TimedOut →
   received_data (download_file env r).1.1 = [] ∧ returned TimedOut = false) ∧
  (received_data r' ≠ [] → (download_loop ts' v' r').2 ≠ Some ReturnTimeout) ∧
  (N.of_nat (length (received_data r0)) < file_size r0 →
   file_transfer_complete r0 = false →
   file_transfer_complete (deliver (arrivals t) r0).1 = false →
   received_data (stall_check t v (deliver (arrivals t) r0).1).1.1 = [] →
   60000 < elapsed_ms t →
   (download_loop (t :: ts) v r0).2 = Some ReturnTimeout ∧
   received_data (download_loop (t :: ts) v r0).1.1 = []).
Proof.
  split; [|split].
  - unfold download_file. destruct (start_ok env); simpl; [|done].
    destruct (send_credits 64 _ _ (reset r)) as [r1 e1].
    pose proof (download_loop_timeout_empty (ticks env) (mkVars 0 0) r1) as Hto.
    destruct (download_loop (ticks env) (mkVars 0 0) r1) as [[r2 e2] x].
    simpl in Hto.
    destruct x as [[| | |]|]; simpl; try done;
      try (destruct (stop_ok env); simpl; done).
    intros _. split; [by apply Hto|done].
  - intros Hdata Hto. apply download_loop_timeout_empty in Hto.
    destruct (download_loop_orderly ts' v' r') as [[_ [rest Hpre] _ _] _].
    rewrite Hto in Hpre. symmetry in Hpre.
    apply app_eq_nil in Hpre as [? _]. done.
  - intros Hrun Hc0 Hc1 Hempty Hlate.
    assert ((download_loop (t :: ts) v r0).2 = Some ReturnTimeout) as Hto.
    2:{ split; [done|by apply download_loop_timeout_empty]. }
    simpl. apply N.ltb_lt in Hrun. rewrite Hrun, Hc0. simpl.
    unfold loop_body.
    pose proof (deliver_file_size (arrivals t) r0) as Hfs.
    destruct (deliver (arrivals t) r0) as [r1 e1]. simpl in *.
    rewrite Hc1.
    destruct (stall_check t v r1) as [[r2 e2] [w|x]] eqn:Hsc; simpl in *.
    + apply N.ltb_lt in Hlate. rewrite Hlate, Hempty. done.
    + exfalso. unfold stall_check in Hsc.
      repeat case_match; simplify_eq.
      unfold progress_ge_99 in *. rewrite Hempty, Hfs in *.
      apply N.ltb_lt in Hrun. simpl in *.
      repeat case_match; try done.
      match goal with H : (_ <=? _) = true |- _ => apply N.leb_le in H end.
      lia.
Qed.

Lemma hard_timeout_witness :
  (received_data (download_file silent_session (fresh 1000)).1.1 = [] ∧
   returned TimedOut = false) ∧
  (download_loop [idle_tick 120] (mkVars 1 0) (mkReceiver 1000 [x41] 1 1 64 false ∅)).2
    ≠ Some ReturnTimeout ∧
  ((download_loop [idle_tick 120] (mkVars 0 15) (mkReceiver 1000 [] 0 0 224 false ∅)).2
     = Some ReturnTimeout ∧
   received_data
     (download_loop [idle_tick 120] (mkVars 0 15) (mkReceiver 1000 [] 0 0 224 false ∅)).1.1
     = []).
Proof.
  destruct (hard_timeout silent_session (fresh 1000)
              (idle_tick 120) [] (mkVars 0 15) (mkReceiver 1000 [] 0 0 224 false ∅)
              [idle_tick 120] (mkVars 1 0) (mkReceiver 1000 [x41] 1 1 64 false ∅))
    as (Hout & Hbyte & Hfire).
  split; [apply Hout; vm_compute; reflexivity|].
  split; [apply Hbyte; discriminate|].
  apply Hfire; reflexivity.
Defined.

(** C5 fails as stated: a session that receives no payload byte, only the
    end marker after 60 s, ends as Complete, not as TimedOut. *)
Lemma end_marker_preempts_timeout :
  (download_file eof_only_session (fresh 1000)).2 = Some Complete ∧
  received_data (download_file eof_only_session (fresh 1000)).1.1 = [] ∧
  (elapsed_ms <$> last (ticks eof_only_session)) = Some 60500.
Proof. repeat split; vm_compute; reflexivity. Qed.

(** ** Stall handling *)

Lemma min_key_empty : min_key ∅ = None.
Proof. unfold min_key. by rewrite dom_empty_L, elements_empty. Qed.




Lemma stall_recovery_nothing r :
  packet_buffer r = ∅ → (stall_recovery r).1 = r.
Proof. intros Hb. unfold stall_recovery. by rewrite Hb, min_key_empty. Qed.

Lemma progress_ge_99_spec r :
  progress_ge_99 r = true ↔
  0 < file_size r ∧ 99 * file_size r ≤ 100 * N.of_nat (length (received_data r)).
Proof.
  unfold progress_ge_99.
  destruct (N.ltb_spec 0 (file_size r)) as [Hpos|Hzero].
  - rewrite N.leb_le. tauto.
  - split; [done|]. intros [? _]. lia.
Qed.







(** ** Credits *)

Lemma credit_writes_app es es' :
  credit_writes (es ++ es') = credit_writes es ++ credit_writes es'.
Proof. apply omap_app. Qed.

Lemma credit_writes_dropped ks : credit_writes (DroppedOld <$> ks) = [].
Proof. by induction ks. Qed.

Lemma process_no_credit r : credit_writes (process_buffered_packets r).2 = [].
Proof.
  unfold process_buffered_packets. case_match; simpl; [|done].
  apply credit_writes_dropped.
Qed.

Lemma accept_in_order_no_credit p r :
  credit_writes (accept_in_order p r).2 = [] ∧
  total_packets (accept_in_order p r).1 = total_packets r ∧
  credits_sent (accept_in_order p r).1 = credits_sent r.
Proof.
  unfold accept_in_order.
  by rewrite process_no_credit, process_total_packets, process_credits_sent.
Qed.

Lemma buffer_out_of_order_no_credit s p r :
  credit_writes (buffer_out_of_order s p r).2 = [] ∧
  total_packets (buffer_out_of_order s p r).1 = total_packets r ∧
  credits_sent (buffer_out_of_order s p r).1 = credits_sent r.
Proof.
  unfold buffer_out_of_order. repeat case_match; try done.
  rewrite and_then_state, and_then_events, credit_writes_app. simpl.
  by rewrite process_no_credit, process_total_packets, process_credits_sent.
Qed.

Lemma stall_recovery_no_credit r : credit_writes (stall_recovery r).2 = [].
Proof.
  unfold stall_recovery. repeat case_match; try done.
  rewrite and_then_events, credit_writes_app. simpl.
  by rewrite process_no_credit.
Qed.

Lemma credit_cadence_writes ok r :
  credit_writes (credit_cadence ok r).2 =
    (if total_packets r mod 2 =? 0 then [2] else []) ∧
  credits_sent (credit_cadence ok r).1 =
    credits_sent r + (if (total_packets r mod 2 =? 0) && ok then 2 else 0).
Proof.
  unfold credit_cadence. case_match; simpl; [|split; [done|lia]].
  rewrite send_credits_idle. simpl. destruct ok; simpl; (split; [done|lia]).
Qed.

Lemma send_credits_head credits ok during r :
  credits ≤ 255 →
  ∃ rest, (send_credits credits ok during r).2 = CreditWrite credits :: rest.
Proof.
  intros Hsmall. unfold send_credits.
  destruct (N.ltb_spec 255 credits) as [?|_]; [lia|].
  rewrite and_then_events. simpl. eexists. reflexivity.
Qed.

(** What a write does to the counter: a write that goes through adds its
    amount, one that fails adds nothing. *)
Lemma send_credits_counter credits ok during r :
  credits ≤ 255 →
  (send_credits credits ok during r).1 =
    if ok
    then set_credits_sent (credits_sent (during r).1 + credits) (during r).1
    else (during r).1.
Proof.
  intros Hsmall. unfold send_credits.
  destruct (N.ltb_spec 255 credits) as [?|_]; [lia|].
  rewrite !and_then_state. cbn [say fst]. by destruct ok.
Qed.

Lemma stall_recovery_credits_sent r :
  credits_sent (stall_recovery r).1 = credits_sent r.
Proof.
  unfold stall_recovery. destruct (min_key (packet_buffer r)) as [m|]; [|done].
  case_match; [|done]. rewrite and_then_state. cbn [say fst].
  by rewrite process_credits_sent.
Qed.

(** C6 (as the code has it): [download_file] writes 64 credits right after
    subscribing; the handler, for a validated packet that is not stale,
    writes 2 credits exactly when the packet counter, this packet
    included, is even; stall handling writes 32 credits whatever the
    counter; each write that succeeds adds its amount to [credits_sent]
    (the 2 of the cadence, the 64 of the start, the 32 of stall handling)
    and a write that fails adds nothing; [credits_sent] never decreases
    during the session. *)
Theorem credit_grants env r ok data r0 t ts v :
  (start_ok env = true →
   ∃ rest, (download_file env r).1.2 = StartNotify :: CreditWrite 64 :: rest) ∧
  (validated data →
   expected_seq r0 ≤ seq_field data →
   credit_writes (notification_handler ok data r0).2 =
     (if (total_packets r0 + 1) mod 2 =? 0 then [2] else []) ∧
   credits_sent (notification_handler ok data r0).1 =
     credits_sent r0 +
     (if ((total_packets r0 + 1) mod 2 =? 0) && ok then 2 else 0)) ∧
  credit_writes (stall_handling t r0).2 =
    32 :: credit_writes (deliver (stall_arrivals t) r0).2 ∧
  credits_sent r0 ≤ credits_sent (notification_handler ok data r0).1 ∧
  credits_sent r0 ≤ credits_sent (stall_handling t r0).1 ∧
  credits_sent r0 ≤ credits_sent (download_loop ts v r0).1.1 ∧
  (start_ok env = true →
   let r1 := (deliver (initial_arrivals env) (reset r)).1 in
   (download_file env r).1.1 =
     (download_loop (ticks env) (mkVars 0 0)
        (if initial_write_ok env
         then set_credits_sent (credits_sent r1 + 64) r1
         else r1)).1.1) ∧
  credits_sent (stall_handling t r0).1 =
    credits_sent (deliver (stall_arrivals t) r0).1 +
    (if stall_write_ok t then 32 else 0).
Proof.
  split; [|split; [|split; [|split; [|split; [|split; [|split]]]]]].
  - intros Hstart. unfold download_file. rewrite Hstart. simpl.
    destruct (send_credits_head 64 (initial_write_ok env)
                (deliver (initial_arrivals env)) (reset r)) as [rest1 Hhead];
      [lia|].
    destruct (send_credits 64 _ _ (reset r)) as [r1 e1]. simpl in Hhead.
    subst e1.
    destruct (download_loop (ticks env) (mkVars 0 0) r1) as [[r2 e2] x].
    destruct x as [[| | |]|]; simpl; try destruct (stop_ok env); simpl;
      eexists; reflexivity.
  - intros Hv Hfresh. rewrite handler_validated by done.
    unfold after_validation. cbn [expected_seq set_total_packets].
    destruct (N.ltb_spec (seq_field data) (expected_seq r0)) as [?|_]; [lia|].
    rewrite !and_then_state, !and_then_events, !credit_writes_app.
    cbn [say fst snd].
    set (ordered :=
           (if seq_field data =? expected_seq r0
            then accept_in_order (payload_of data)
            else buffer_out_of_order (seq_field data) (payload_of data))
             (set_total_packets (total_packets r0 + 1) r0)).
    assert (credit_writes ordered.2 = [] ∧
            total_packets ordered.1 = total_packets r0 + 1 ∧
            credits_sent ordered.1 = credits_sent r0) as (Hw & Htp & Hcs).
    { unfold ordered. case_match.
      - exact (accept_in_order_no_credit _
                 (set_total_packets (total_packets r0 + 1) r0)).
      - exact (buffer_out_of_order_no_credit _ _
                 (set_total_packets (total_packets r0 + 1) r0)). }
    destruct (credit_cadence_writes ok ordered.1) as [Hcw Hcc].
    rewrite Hw, Hcw, Hcc, Htp, Hcs.
    split; [|done].
    by destruct (negb (crc_field data =? crc16_ccitt (payload_of data))).
  - unfold stall_handling. rewrite !and_then_events, !credit_writes_app.
    rewrite stall_recovery_no_credit, app_nil_r. simpl.
    unfold send_credits. simpl.
    rewrite !and_then_events, !credit_writes_app. simpl.
    by destruct (stall_write_ok t); simpl; rewrite app_nil_r.
  - apply (orderly_notification_handler ok data r0).
  - apply (orderly_stall_handling t r0).
  - apply (download_loop_orderly ts v r0).
  - intros Hstart. unfold download_file. rewrite Hstart. simpl negb. cbn iota.
    pose proof (send_credits_counter 64 (initial_write_ok env)
                  (deliver (initial_arrivals env)) (reset r)) as Hcounter.
    destruct (send_credits 64 _ _ (reset r)) as [r1 e1]. simpl in Hcounter.
    rewrite <- Hcounter by lia.
    destruct (download_loop (ticks env) (mkVars 0 0) r1) as [[r2 e2] x].
    destruct x as [[| | |]|]; simpl; try destruct (stop_ok env); done.
  - unfold stall_handling. rewrite !and_then_state. cbn [say fst].
    rewrite stall_recovery_credits_sent, send_credits_counter by lia.
    destruct (stall_write_ok t); simpl; lia.
Qed.

Lemma credit_grants_witness :
  (∃ rest, (download_file silent_session (fresh 1000)).1.2 =
             StartNotify :: CreditWrite 64 :: rest) ∧
  (credit_writes
     (notification_handler true (data_frame 1 [x42]) after_first_packet).2 = [2] ∧
   credits_sent
     (notification_handler true (data_frame 1 [x42]) after_first_packet).1 = 66) ∧
  credit_writes (stall_handling (idle_tick 20) after_first_packet).2 = [32] ∧
  (download_file (mkEnv true true [] [] true) (fresh 1000)).1.1 =
    set_credits_sent 64 (fresh 1000) ∧
  credits_sent (stall_handling (idle_tick 20) after_first_packet).1 = 96.
Proof.
  destruct (credit_grants silent_session (fresh 1000) true (data_frame 1 [x42])
              after_first_packet (idle_tick 20) (idle_ticks 3) (mkVars 1 0))
    as (Hinitial & Hcadence & Hstall & _ & _ & _ & _ & Hthirty_two).
  destruct (credit_grants (mkEnv true true [] [] true) (fresh 1000) true
              (data_frame 1 [x42]) after_first_packet (idle_tick 20)
              (idle_ticks 3) (mkVars 1 0))
    as (_ & _ & _ & _ & _ & _ & Hburst & _).
  split; [by apply Hinitial|]. split; [|split; [exact Hstall|split]].
  - apply Hcadence.
    + split; [simpl; lia|]. split; [|reflexivity].
      intros [H _]. vm_compute in H. discriminate H.
    + vm_compute. discriminate.
  - etrans; [apply Hburst; reflexivity|]. reflexivity.
  - etrans; [exact Hthirty_two|]. reflexivity.
Defined.

(** C6 fails as stated: packet 0, packet 0 again, packet 1.  Three packets
    are counted, two of them go to the output, and no credit is written:
    the duplicate makes the counter even, and for a stale packet the
    handler returns before the credit cadence. *)
Lemma duplicate_skips_grant :
  total_packets
    (deliver [mkDelivery (data_frame 0 [x41]) true;
              mkDelivery (data_frame 0 [x41]) true;
              mkDelivery (data_frame 1 [x42]) true] (fresh 1000)).1 = 3 ∧
  received_data
    (deliver [mkDelivery (data_frame 0 [x41]) true;
              mkDelivery (data_frame 0 [x41]) true;
              mkDelivery (data_frame 1 [x42]) true] (fresh 1000)).1 = [x41; x42] ∧
  credit_writes
    (deliver [mkDelivery (data_frame 0 [x41]) true;
              mkDelivery (data_frame 0 [x41]) true;
              mkDelivery (data_frame 1 [x42]) true] (fresh 1000)).2 = [].
Proof. repeat split; vm_compute; reflexivity. Qed.

(** ** The cap on the reorder buffer *)

(** C2: after these 201 packets the reorder buffer holds 101 entries, one
    more than [max_buffer_size].  The clean-up sits in
    [process_buffered_packets], which the handler does not call when it
    buffers a packet within 50 of [expected_seq]. *)
Theorem buffer_exceeds_cap :
  size (packet_buffer (deliver overflow_arrivals (fresh 100000)).1) = 101%nat ∧
  expected_seq (deliver overflow_arrivals (fresh 100000)).1 = 300 ∧
  max_buffer_size = 100%nat.
Proof. repeat split; vm_compute; reflexivity. Qed.

Lemma sorted_keys_facts (b : gmap N bytes) :
  NoDup (sorted_keys b) ∧
  StronglySorted N.le (sorted_keys b) ∧
  length (sorted_keys b) = size b ∧
  ∀ k, k ∈ sorted_keys b ↔ is_Some (b !! k).
Proof.
  unfold sorted_keys.
  pose proof (merge_sort_Permutation N.le (elements (dom b))) as Hp.
  split; [rewrite Hp; apply NoDup_elements|].
  split; [apply StronglySorted_merge_sort; apply _|].
  split; [rewrite Hp, <- size_dom; reflexivity|].
  intros k. by rewrite Hp, elem_of_elements, elem_of_dom.
Qed.

Lemma size_delete_all ks (b : gmap N bytes) :
  NoDup ks →
  (∀ k, k ∈ ks → is_Some (b !! k)) →
  size (delete_all ks b) = (size b - length ks)%nat.
Proof.
  revert b. induction ks as [|k ks IH]; intros b Hnd Hin.
  { unfold delete_all. simpl. lia. }
  apply NoDup_cons in Hnd as [Hk Hnd].
  change (delete_all (k :: ks) b) with (delete_all ks (delete k b)).
  rewrite IH; [|done|].
  - rewrite map_size_delete_Some by (apply Hin, list_elem_of_here). simpl. lia.
  - intros j Hj. rewrite lookup_delete_ne.
    + by apply Hin, list_elem_of_further.
    + intros ->. done.
Qed.

(** The clean-up at the end of [process_buffered_packets]: afterwards the
    buffer holds at most [max_buffer_size] entries; when it held more, the
    entries dropped are the lowest keys, each reported, each below every
    key that is kept, and exactly half the cap is kept. *)
Theorem eviction_drops_lowest r kept dropped :
  let drained := drain (size (packet_buffer r)) r in
  let after := (process_buffered_packets r).1 in
  (size (packet_buffer after) ≤ max_buffer_size)%nat ∧
  ((max_buffer_size < size (packet_buffer drained))%nat →
   size (packet_buffer after) = (max_buffer_size / 2)%nat ∧
   (process_buffered_packets r).2 = DroppedOld <$> old_seqs (packet_buffer drained) ∧
   (dropped ∈ old_seqs (packet_buffer drained) →
    is_Some (packet_buffer after !! kept) →
    dropped < kept)) ∧
  ((size (packet_buffer drained) ≤ max_buffer_size)%nat →
   process_buffered_packets r = (drained, [])).
Proof.
  intros drained after.
  assert ((max_buffer_size < size (packet_buffer drained))%nat →
          size (packet_buffer after) = (max_buffer_size / 2)%nat ∧
          (process_buffered_packets r).2 =
            DroppedOld <$> old_seqs (packet_buffer drained) ∧
          (dropped ∈ old_seqs (packet_buffer drained) →
           is_Some (packet_buffer after !! kept) →
           dropped < kept)) as Hover.
  { intros Hbig. unfold after, process_buffered_packets. fold drained.
    apply Nat.ltb_lt in Hbig. rewrite Hbig. apply Nat.ltb_lt in Hbig. simpl.
    destruct (sorted_keys_facts (packet_buffer drained))
      as (Hnd & Hsorted & Hlen & Hkeys).
    set (n := (size (packet_buffer drained) - max_buffer_size / 2)%nat).
    assert (old_seqs (packet_buffer drained) =
            take n (sorted_keys (packet_buffer drained))) as Hold by done.
    pose proof (take_drop n (sorted_keys (packet_buffer drained))) as Hsplit.
    rewrite <- Hold in Hsplit. rewrite <- Hsplit in Hnd, Hsorted.
    assert (∀ k, k ∈ old_seqs (packet_buffer drained) →
                 is_Some (packet_buffer drained !! k)) as Hpresent.
    { intros k Hk. apply Hkeys. rewrite <- Hsplit.
      apply elem_of_app. by left. }
    split; [|split; [done|]].
    - rewrite size_delete_all; [|by apply NoDup_app in Hnd as [? _]|done].
      rewrite Hold, length_take, Hlen. unfold n, max_buffer_size in *.
      simpl in *. lia.
    - intros Hdropped [q Hkept]. rewrite delete_all_lookup in Hkept.
      case_decide as Hnot; [done|].
      assert (kept ∈ drop n (sorted_keys (packet_buffer drained))) as Hrest.
      { assert (kept ∈ sorted_keys (packet_buffer drained)) as Hin
          by (apply Hkeys; by eexists).
        rewrite <- Hsplit in Hin. apply elem_of_app in Hin as [?|?]; done. }
      pose proof (StronglySorted_app_1_elem_of _ _ _ _ _ Hsorted Hdropped Hrest).
      apply NoDup_app in Hnd as (_ & Hdisj & _).
      assert (dropped ≠ kept) by (intros ->; by eapply Hdisj).
      lia. }
  split; [|split; [done|by apply process_no_overflow]].
  destruct (Nat.le_gt_cases (size (packet_buffer drained)) max_buffer_size)
    as [Hsmall|Hbig].
  - unfold after. by rewrite process_no_overflow.
  - destruct (Hover Hbig) as [-> _]. unfold max_buffer_size. simpl. lia.
Qed.

(** 101 rounds: the last far packet makes 102 entries, the skip pops one,
    and the clean-up drops the 51 lowest keys and keeps 50. *)
Example eviction_in_a_run :
  let run := deliver (flat_map overflow_round (seq 0 101)) (fresh 100000) in
  size (packet_buffer run.1) = 50%nat ∧
  credit_writes run.2 = replicate 101 2 ∧
  List.filter (λ e, match e with DroppedOld _ => true | _ => false end) run.2 =
    (λ i, DroppedOld (10000 + N.of_nat i)) <$> seq 0 51.
Proof. repeat split; vm_compute; reflexivity. Qed.

(** * Further properties of the code *)

(** ** The checksum *)

Lemma crc_round_bound crc : crc_round crc < 65536.
Proof.
  unfold crc_round. change 0xFFFF with (N.ones 16).
  case_match; rewrite N.land_ones; by apply N.mod_lt.
Qed.

Lemma crc_byte_bound crc x : crc_byte crc x < 65536.
Proof. unfold crc_byte. simpl. apply crc_round_bound. Qed.

Lemma fold_crc_bound data init :
  init < 65536 → fold_left crc_byte data init < 65536.
Proof.
  revert init. induction data as [|x data IH]; intros init Hinit; [done|].
  simpl. apply IH, crc_byte_bound.
Qed.

(** [crc16_ccitt] always returns a 16-bit value, so for every payload
    there is a checksum field that matches it. *)
Theorem crc16_ccitt_fits_u16 data : crc16_ccitt data < 2 ^ 16.
Proof. unfold crc16_ccitt. by apply fold_crc_bound. Qed.

Lemma crc_errors_app es es' : crc_errors (es ++ es') = crc_errors es ++ crc_errors es'.
Proof. apply List.filter_app. Qed.

Lemma crc_errors_dropped ks : crc_errors (DroppedOld <$> ks) = [].
Proof. by induction ks. Qed.

Lemma process_no_crc_error r : crc_errors (process_buffered_packets r).2 = [].
Proof.
  unfold process_buffered_packets. case_match; simpl; [|done].
  apply crc_errors_dropped.
Qed.

Lemma ordering_no_crc_error ok seq payload r :
  crc_errors
    (((if seq =? expected_seq r
       then accept_in_order payload
       else buffer_out_of_order seq payload) >>> credit_cadence ok) r).2 = [].
Proof.
  rewrite and_then_events, crc_errors_app.
  assert (crc_errors (credit_cadence ok
            ((if seq =? expected_seq r
              then accept_in_order payload
              else buffer_out_of_order seq payload) r).1).2 = []) as ->.
  { unfold credit_cadence. case_match; [|done].
    rewrite send_credits_idle. simpl. by destruct ok. }
  rewrite app_nil_r. case_match.
  - unfold accept_in_order. apply process_no_crc_error.
  - unfold buffer_out_of_order. repeat case_match; try done.
    rewrite and_then_events, crc_errors_app. simpl.
    apply process_no_crc_error.
Qed.

(** For a validated frame the handler reports a checksum error exactly
    when the checksum field differs from the CRC of the payload, and then
    reports it once, with the sequence number and both values. *)
Theorem crc_error_iff_mismatch ok data r :
  validated data →
  crc_errors (notification_handler ok data r).2 =
    if decide (crc_field data = crc16_ccitt (payload_of data))
    then []
    else [CrcError (seq_field data) (crc16_ccitt (payload_of data))
            (crc_field data)].
Proof.
  intros Hv. rewrite handler_validated by done. unfold after_validation.
  cbn [expected_seq set_total_packets].
  set (note := if negb _ then _ else _).
  assert (crc_errors note =
          if decide (crc_field data = crc16_ccitt (payload_of data))
          then []
          else [CrcError (seq_field data) (crc16_ccitt (payload_of data))
                  (crc_field data)]) as Hnote.
  { unfold note.
    destruct (N.eqb_spec (crc_field data) (crc16_ccitt (payload_of data)));
      simpl; [by rewrite decide_True|by rewrite decide_False]. }
  destruct (seq_field data <? expected_seq r); [exact Hnote|].
  rewrite and_then_events, crc_errors_app. cbn [say fst snd].
  rewrite Hnote.
  pose proof (ordering_no_crc_error ok (seq_field data) (payload_of data)
                (set_total_packets (total_packets r + 1) r)) as Hrest.
  cbn [expected_seq set_total_packets] in Hrest. rewrite Hrest.
  by rewrite app_nil_r.
Qed.

Lemma crc_error_iff_mismatch_witness :
  crc_errors (notification_handler true bad_crc_frame (fresh 1000)).2 =
    [CrcError 0 (crc16_ccitt [x41]) 0] ∧
  crc_errors (notification_handler true (data_frame 0 [x41]) (fresh 1000)).2 = [].
Proof.
  split.
  - rewrite crc_error_iff_mismatch; [reflexivity|].
    split; [simpl; lia|]. split; [|reflexivity].
    intros [H _]. vm_compute in H. discriminate.
  - rewrite crc_error_iff_mismatch; [reflexivity|].
    split; [simpl; lia|]. split; [|reflexivity].
    intros [H _]. vm_compute in H. discriminate.
Defined.

(** ** The frame layout *)

Lemma pack_le_length w v : length (pack_le w v) = w.
Proof. revert v. induction w as [|w IH]; intros v; simpl; [done|by rewrite IH]. Qed.

Lemma byte_of_to_N x :
  x < 256 → Byte.to_N (default x00 (Byte.of_N x)) = x.
Proof.
  intros Hx. pose proof (Byte.to_of_N_option_map x) as Hopt.
  destruct (N.leb_spec x 255) as [_|?]; [|lia].
  destruct (Byte.of_N x) as [y|]; [|done].
  simpl in *. by injection Hopt.
Qed.

Lemma unpack_pack_le w v : unpack_le (pack_le w v) = v mod 256 ^ N.of_nat w.
Proof.
  revert v. induction w as [|w IH]; intros v.
  { simpl. by rewrite N.mod_1_r. }
  cbn [pack_le unpack_le]. rewrite IH, byte_of_to_N by (by apply N.mod_lt).
  rewrite Nat2N.inj_succ, N.pow_succ_r'.
  by rewrite N.Div0.mod_mul_r.
Qed.

Lemma raw_frame_fields seq len crc trailing :
  seq_field (raw_frame seq len crc trailing) = seq mod 2 ^ 32 ∧
  length_field (raw_frame seq len crc trailing) = len mod 2 ^ 16 ∧
  crc_field (raw_frame seq len crc trailing) = crc mod 2 ^ 16 ∧
  drop 8 (raw_frame seq len crc trailing) = trailing.
Proof.
  split; [exact (unpack_pack_le 4 seq)|].
  split; [exact (unpack_pack_le 2 len)|].
  split; [exact (unpack_pack_le 2 crc)|done].
Qed.

(** Parsing inverts the layout [[seq32|len16|crc16|payload]]: a frame laid
    out little-endian from a 32-bit sequence number, a 16-bit checksum and
    a payload shorter than 2^16 bytes, other than the end marker, passes
    validation and is handled as exactly that packet. *)
Theorem parse_inverts_layout ok seq crc payload r :
  seq < 2 ^ 32 →
  crc < 2 ^ 16 →
  N.of_nat (length payload) < 2 ^ 16 →
  ¬ (payload = [] ∧ crc = 0) →
  let data := raw_frame seq (N.of_nat (length payload)) crc payload in
  validated data ∧
  packet_of data = Some (seq, payload) ∧
  crc_field data = crc ∧
  notification_handler ok data r = after_validation ok seq crc payload r.
Proof.
  intros Hseq Hcrc Hlen Hnot data.
  destruct (raw_frame_fields seq (N.of_nat (length payload)) crc payload)
    as (Hs & Hl & Hc & Hd). fold data in Hs, Hl, Hc, Hd.
  rewrite N.mod_small in Hs, Hl, Hc by done.
  assert (payload_of data = payload) as Hp.
  { unfold payload_of, slice. rewrite Hl, Hd, Nat2N.id.
    replace (8 + length payload - 8)%nat with (length payload) by lia.
    apply firstn_all. }
  assert (validated data) as Hv.
  { split; [|split].
    - unfold data, raw_frame. rewrite !length_app, !pack_le_length. lia.
    - rewrite Hl, Hc. intros [H0 Hc0]. apply Hnot. split; [|done].
      apply length_zero_iff_nil. lia.
    - by rewrite Hp, Hl. }
  split; [done|].
  assert (notification_handler ok data r = after_validation ok seq crc payload r)
    as Hh by (by rewrite handler_validated, Hs, Hc, Hp).
  split; [|done].
  destruct Hv as (Hlong & Heof & Hpay). unfold packet_of.
  destruct (Nat.ltb_spec (length data) 8) as [?|_]; [lia|].
  destruct (N.eqb_spec (length_field data) 0) as [H0|H0];
    destruct (N.eqb_spec (crc_field data) 0) as [Hc0|Hc0]; simpl;
    try (exfalso; by apply Heof);
    by rewrite Hpay, N.eqb_refl, Hs, Hp.
Qed.

Lemma parse_inverts_layout_witness :
  validated (raw_frame 7 (N.of_nat (length [x41; x42])) 513 [x41; x42]) ∧
  packet_of (raw_frame 7 (N.of_nat (length [x41; x42])) 513 [x41; x42]) =
    Some (7, [x41; x42]) ∧
  crc_field (raw_frame 7 (N.of_nat (length [x41; x42])) 513 [x41; x42]) = 513 ∧
  notification_handler true
    (raw_frame 7 (N.of_nat (length [x41; x42])) 513 [x41; x42]) (fresh 1000) =
    after_validation true 7 513 [x41; x42] (fresh 1000).
Proof.
  apply (parse_inverts_layout true 7 513 [x41; x42] (fresh 1000));
    try reflexivity.
  intros [H _]. discriminate.
Defined.

(** ** Monotone progress *)

Lemma accept_in_order_expected payload r :
  expected_seq r < expected_seq (accept_in_order payload r).1.
Proof.
  unfold accept_in_order. rewrite process_expected_seq.
  set (ra := set_expected_seq (expected_seq r + 1)
               (set_received_data (received_data r ++ payload) r)).
  pose proof (drain_expected_le (size (packet_buffer ra)) ra) as Hle.
  change (expected_seq ra) with (expected_seq r + 1) in Hle. lia.
Qed.

Lemma available_seqs_ge r x xs :
  available_seqs r = x :: xs → expected_seq r ≤ x.
Proof.
  unfold available_seqs. intros [Hin _]%merge_sort_head.
  by apply list_elem_of_filter in Hin as [? _].
Qed.

Lemma buffer_out_of_order_expected seq payload r :
  expected_seq r ≤ expected_seq (buffer_out_of_order seq payload r).1.
Proof.
  unfold buffer_out_of_order.
  destruct (packet_buffer r !! seq); [simpl; lia|].
  set (r1 := set_packet_buffer _ r). case_match; [|simpl; lia].
  destruct (available_seqs r1) as [|next rest] eqn:Hav; [simpl; lia|].
  apply available_seqs_ge in Hav. simpl in Hav.
  rewrite and_then_state. cbn [say fst]. rewrite process_expected_seq.
  set (rn := set_expected_seq next r1).
  pose proof (drain_expected_le (size (packet_buffer rn)) rn) as Hle.
  change (expected_seq rn) with next in Hle. lia.
Qed.

Lemma after_validation_expected ok seq crc payload r :
  expected_seq r ≤ expected_seq (after_validation ok seq crc payload r).1.
Proof.
  unfold after_validation. cbn [expected_seq set_total_packets].
  destruct (seq <? expected_seq r); [simpl; lia|].
  rewrite !and_then_state. cbn [say fst].
  rewrite credit_cadence_expected_seq.
  destruct (seq =? expected_seq r).
  - pose proof (accept_in_order_expected payload
                  (set_total_packets (total_packets r + 1) r)) as H.
    simpl in H. lia.
  - exact (buffer_out_of_order_expected seq payload
             (set_total_packets (total_packets r + 1) r)).
Qed.

Lemma notification_handler_expected ok data r :
  expected_seq r ≤ expected_seq (notification_handler ok data r).1.
Proof.
  unfold notification_handler. repeat case_match; simpl; try lia.
  apply after_validation_expected.
Qed.

Lemma deliver_expected ds r : expected_seq r ≤ expected_seq (deliver ds r).1.
Proof.
  revert r. induction ds as [|d ds IH]; intros r; [simpl; lia|].
  simpl. rewrite and_then_state.
  etrans; [apply (notification_handler_expected (credit_ok d) (frame d))|apply IH].
Qed.

Lemma stall_recovery_expected r :
  ahead r → expected_seq r ≤ expected_seq (stall_recovery r).1.
Proof.
  intros Hr. unfold stall_recovery.
  destruct (min_key (packet_buffer r)) as [m|] eqn:Hmin; [|simpl; lia].
  case_match; [|simpl; lia].
  apply min_key_spec in Hmin as [Hin _]. specialize (Hr m Hin).
  rewrite and_then_state. cbn [say fst]. rewrite process_expected_seq.
  set (rm := set_expected_seq m r).
  pose proof (drain_expected_le (size (packet_buffer rm)) rm) as Hle.
  change (expected_seq rm) with m in Hle. lia.
Qed.

Lemma stall_handling_expected t r :
  ahead r → expected_seq r ≤ expected_seq (stall_handling t r).1.
Proof.
  intros Hr. unfold stall_handling. rewrite !and_then_state. cbn [say fst].
  set (r1 := (send_credits 32 _ _ r).1).
  assert (ahead r1 ∧ expected_seq r ≤ expected_seq r1) as [Hr1 Hle].
  { unfold r1.
    pose proof (deliver_ahead (stall_arrivals t) r Hr) as Hd.
    pose proof (deliver_expected (stall_arrivals t) r) as He.
    destruct (send_credits_state 32 (stall_write_ok t)
                (deliver (stall_arrivals t)) r) as [->|[->| ->]];
      [split; [done|lia]|done|].
    split; [|done]. by apply (ahead_same (deliver (stall_arrivals t) r).1). }
  etrans; [exact Hle|by apply stall_recovery_expected].
Qed.

(** [expected_seq] never moves backward: not on any handler invocation,
    whatever the state, and not on stall handling in any state a session
    can reach. *)
Theorem expected_seq_never_decreases size acts a ok data r0 :
  let r := (perform_all acts (fresh size)).1 in
  expected_seq r ≤ expected_seq (perform a r).1 ∧
  expected_seq r0 ≤ expected_seq (notification_handler ok data r0).1.
Proof.
  split; [|apply notification_handler_expected].
  destruct a as [d|t]; [apply notification_handler_expected|].
  apply stall_handling_expected, perform_all_ahead.
  intros j [? Hj]. simpl in Hj. by rewrite lookup_empty in Hj.
Qed.

Lemma orderly_perform_all acts : orderly (perform_all acts).
Proof.
  induction acts as [|a acts IH]; [apply orderly_idle|].
  simpl. apply orderly_and_then; [|done].
  destruct a; [apply orderly_notification_handler|apply orderly_stall_handling].
Qed.

(** Whatever the handler and the stall handling do, in any order and from
    any state, the output already written stays as a prefix of the output,
    the packet and credit counters do not go down and the declared size is
    not touched; the same holds over any number of passes of the driving
    loop. *)
Theorem output_is_append_only acts ts v r :
  (received_data r `prefix_of` received_data (perform_all acts r).1 ∧
   total_packets r ≤ total_packets (perform_all acts r).1 ∧
   credits_sent r ≤ credits_sent (perform_all acts r).1 ∧
   file_size (perform_all acts r).1 = file_size r) ∧
  (received_data r `prefix_of` received_data (download_loop ts v r).1.1 ∧
   total_packets r ≤ total_packets (download_loop ts v r).1.1 ∧
   credits_sent r ≤ credits_sent (download_loop ts v r).1.1 ∧
   file_size (download_loop ts v r).1.1 = file_size r).
Proof.
  destruct (orderly_perform_all acts r) as [[? ? ? ?] _].
  destruct (download_loop_orderly ts v r) as [[? ? ? ?] _].
  done.
Qed.

(** ** The packet counter *)

Lemma after_validation_total_packets ok seq crc payload r :
  total_packets (after_validation ok seq crc payload r).1 = total_packets r + 1.
Proof.
  unfold after_validation. cbn [expected_seq set_total_packets].
  destruct (seq <? expected_seq r); [done|].
  rewrite !and_then_state. cbn [say fst].
  rewrite credit_cadence_total_packets.
  destruct (seq =? expected_seq r).
  - by destruct (accept_in_order_no_credit payload
                   (set_total_packets (total_packets r + 1) r)) as (_ & -> & _).
  - by destruct (buffer_out_of_order_no_credit seq payload
                   (set_total_packets (total_packets r + 1) r)) as (_ & -> & _).
Qed.

Lemma handler_not_packet_total ok data r :
  packet_of data = None →
  total_packets (notification_handler ok data r).1 = total_packets r.
Proof.
  unfold packet_of, notification_handler.
  repeat case_match; try done.
Qed.

(** [total_packets] counts exactly the frames that pass validation: stale
    and duplicate packets included, short frames, length mismatches and
    end markers excluded. *)
Theorem total_packets_counts_validated ds r :
  total_packets (deliver ds r).1 =
    total_packets r + N.of_nat (length (packets ds)).
Proof.
  revert r. induction ds as [|d ds IH]; intros r.
  { simpl. lia. }
  simpl deliver. rewrite and_then_state, IH, packets_cons.
  destruct (packet_of (frame d)) as [[s p]|] eqn:Hpk.
  - rewrite (handler_packet _ _ _ _ _ Hpk), after_validation_total_packets.
    simpl length. lia.
  - by rewrite handler_not_packet_total.
Qed.

(** ** The real bound on the reorder buffer *)

Lemma eviction_size (b : gmap N bytes) :
  (max_buffer_size < size b)%nat →
  size (delete_all (old_seqs b) b) = (max_buffer_size / 2)%nat.
Proof.
  intros Hbig.
  destruct (sorted_keys_facts b) as (Hnd & _ & Hlen & Hkeys).
  pose proof (take_drop (size b - max_buffer_size / 2) (sorted_keys b)) as Hsplit.
  fold (old_seqs b) in Hsplit.
  rewrite size_delete_all.
  - unfold old_seqs. rewrite length_take, Hlen.
    unfold max_buffer_size in *. simpl in *. lia.
  - rewrite <- Hsplit in Hnd. by apply NoDup_app in Hnd as [? _].
  - intros k Hk. apply Hkeys. rewrite <- Hsplit. apply elem_of_app. by left.
Qed.

Lemma process_size_le r :
  (size (packet_buffer (process_buffered_packets r).1) ≤ max_buffer_size)%nat.
Proof.
  unfold process_buffered_packets.
  destruct (Nat.ltb_spec max_buffer_size
              (size (packet_buffer (drain (size (packet_buffer r)) r))))
    as [Hbig|Hsmall]; simpl; [|done].
  rewrite eviction_size by done. unfold max_buffer_size. simpl. lia.
Qed.

Lemma far_count_le_size r : (far_count r ≤ size (packet_buffer r))%nat.
Proof. apply map_size_filter. Qed.

Lemma process_bounded r :
  (∀ k, is_Some (packet_buffer r !! k) → expected_seq r ≤ k) →
  bounded (process_buffered_packets r).1.
Proof.
  intros Hge. split; [by apply process_ahead|].
  etrans; [apply far_count_le_size|apply process_size_le].
Qed.

Lemma bounded_same r r' :
  expected_seq r' = expected_seq r →
  packet_buffer r' = packet_buffer r →
  bounded r → bounded r'.
Proof.
  intros He Hb [Ha Hf]. split; [by apply (ahead_same r)|].
  unfold far_count in *. by rewrite He, Hb.
Qed.

Lemma available_seqs_nonempty r s :
  is_Some (packet_buffer r !! s) → expected_seq r ≤ s → available_seqs r ≠ [].
Proof.
  intros Hs Hge Hnil. unfold available_seqs in Hnil.
  assert (s ∈ filter (λ k, expected_seq r ≤ k) (elements (dom (packet_buffer r))))
    as Hin.
  { apply list_elem_of_filter. split; [done|].
    by apply elem_of_elements, elem_of_dom. }
  rewrite <- (merge_sort_Permutation N.le) in Hin. rewrite Hnil in Hin.
  by apply elem_of_nil in Hin.
Qed.

Lemma buffer_out_of_order_bounded seq payload r :
  expected_seq r < seq → bounded r → bounded (buffer_out_of_order seq payload r).1.
Proof.
  intros Hseq [Hr Hfar]. unfold buffer_out_of_order.
  destruct (packet_buffer r !! seq) eqn:Hfree; [done|].
  set (r1 := set_packet_buffer (<[seq:=payload]> (packet_buffer r)) r).
  assert (ahead r1) as Hr1.
  { intros k Hk. simpl in *. destruct (decide (k = seq)) as [->|Hne]; [done|].
    rewrite lookup_insert_ne in Hk by done. by apply Hr. }
  cbn [expected_seq r1 set_packet_buffer].
  destruct (N.ltb_spec 50 (seq - expected_seq r)) as [Hgap|Hnear].
  - destruct (available_seqs r1) as [|next rest] eqn:Hav.
    { exfalso. apply (available_seqs_nonempty r1 seq); [|simpl; lia|done].
      simpl. rewrite lookup_insert_eq. by eexists. }
    rewrite and_then_state. cbn [say fst].
    apply available_seqs_head in Hav as [_ Hmin].
    apply process_bounded. intros k Hk. simpl in Hk |- *.
    apply Hmin; [done|]. apply N.lt_le_incl. exact (Hr1 k Hk).
  - split; [done|]. unfold far_count. simpl.
    rewrite map_filter_insert_not; [done|]. simpl. intros _. lia.
Qed.

Lemma after_validation_bounded ok seq crc payload r :
  bounded r → bounded (after_validation ok seq crc payload r).1.
Proof.
  intros Hr. unfold after_validation. cbn [expected_seq set_total_packets].
  set (r1 := set_total_packets (total_packets r + 1) r).
  assert (bounded r1) as Hr1 by (by apply (bounded_same r)).
  destruct (N.ltb_spec seq (expected_seq r)) as [?|Hge]; [done|].
  rewrite !and_then_state. cbn [say fst].
  eapply bounded_same;
    [apply credit_cadence_expected_seq|apply credit_cadence_packet_buffer|].
  destruct (N.eqb_spec seq (expected_seq r)) as [?|Hne].
  - unfold accept_in_order. apply process_bounded. simpl. intros k Hk.
    destruct Hr as [Hr _]. specialize (Hr k Hk). lia.
  - apply buffer_out_of_order_bounded; [simpl; lia|done].
Qed.

Lemma notification_handler_bounded ok data r :
  bounded r → bounded (notification_handler ok data r).1.
Proof.
  intros Hr. unfold notification_handler.
  repeat case_match; try done.
  by apply after_validation_bounded.
Qed.

Lemma deliver_bounded ds r : bounded r → bounded (deliver ds r).1.
Proof.
  revert r. induction ds as [|d ds IH]; intros r Hr; [done|].
  simpl. rewrite and_then_state. by apply IH, notification_handler_bounded.
Qed.

Lemma stall_recovery_bounded r : bounded r → bounded (stall_recovery r).1.
Proof.
  intros Hr. unfold stall_recovery.
  destruct (min_key (packet_buffer r)) as [m|] eqn:Hmin; [|done].
  case_match; [|done]. rewrite and_then_state. cbn [say fst].
  apply min_key_spec in Hmin as [_ Hmin].
  apply process_bounded. simpl. done.
Qed.

Lemma stall_handling_bounded t r : bounded r → bounded (stall_handling t r).1.
Proof.
  intros Hr. unfold stall_handling. rewrite !and_then_state. cbn [say fst].
  apply stall_recovery_bounded.
  pose proof (deliver_bounded (stall_arrivals t) r Hr) as Hd.
  destruct (send_credits_state 32 (stall_write_ok t) (deliver (stall_arrivals t)) r)
    as [->|[->| ->]]; [done|done|].
  by apply (bounded_same (deliver (stall_arrivals t) r).1).
Qed.

Lemma perform_all_bounded acts r : bounded r → bounded (perform_all acts r).1.
Proof.
  revert r. induction acts as [|a acts IH]; intros r Hr; [done|].
  simpl. rewrite and_then_state. apply IH.
  destruct a; [by apply notification_handler_bounded|by apply stall_handling_bounded].
Qed.

Lemma bounded_size r :
  bounded r → (size (packet_buffer r) ≤ max_buffer_size + 50)%nat.
Proof.
  intros [Hr Hfar]. unfold far_count in Hfar.
  set (far := λ kv : N * bytes, expected_seq r + 50 < kv.1) in *.
  rewrite <- (map_filter_union_complement far (packet_buffer r)).
  rewrite map_size_disj_union by apply map_disjoint_filter_complement.
  apply Nat.add_le_mono; [done|].
  apply (size_bounded_range _ (expected_seq r)). intros k [q Hk].
  apply map_lookup_filter_Some in Hk as [Hk Hnear]. unfold far in Hnear.
  simpl in Hnear. split; [apply Hr; by eexists|lia].
Qed.

(** During a session the reorder buffer never holds more than
    [max_buffer_size + 50 = 150] packets, and it can hold that many: up to
    100 packets far ahead survive the clean-up, and the 50 sequence numbers
    just ahead of [expected_seq] are buffered without any clean-up. *)
Theorem buffer_at_most_150 total acts :
  (size (packet_buffer (perform_all acts (fresh total)).1) ≤ 150)%nat ∧
  size (packet_buffer (deliver crowded_arrivals (fresh 100000)).1) = 150%nat.
Proof.
  split; [|vm_compute; reflexivity].
  apply (bounded_size (perform_all acts (fresh total)).1), perform_all_bounded.
  split.
  - intros j [? Hj]. simpl in Hj. by rewrite lookup_empty in Hj.
  - unfold far_count. simpl. rewrite map_filter_empty, map_size_empty. lia.
Qed.

(** ** The end marker ends the session *)

Lemma after_validation_complete ok seq crc payload r :
  file_transfer_complete (after_validation ok seq crc payload r).1 =
    file_transfer_complete r.
Proof.
  unfold after_validation. cbn [expected_seq set_total_packets].
  destruct (seq <? expected_seq r); [done|].
  rewrite !and_then_state. cbn [say fst].
  rewrite credit_cadence_complete.
  destruct (seq =? expected_seq r).
  - unfold accept_in_order. by rewrite process_complete.
  - unfold buffer_out_of_order. repeat case_match; try done.
    rewrite and_then_state. cbn [say fst]. by rewrite process_complete.
Qed.

Lemma handler_complete_sticky ok data r :
  file_transfer_complete r = true →
  file_transfer_complete (notification_handler ok data r).1 = true.
Proof.
  intros Hc. unfold notification_handler. repeat case_match; try done.
  by rewrite after_validation_complete.
Qed.

Lemma deliver_complete_sticky ds r :
  file_transfer_complete r = true →
  file_transfer_complete (deliver ds r).1 = true.
Proof.
  revert r. induction ds as [|d ds IH]; intros r Hc; [done|].
  simpl. rewrite and_then_state. by apply IH, handler_complete_sticky.
Qed.

Lemma deliver_app_state ds ds' r :
  (deliver (ds ++ ds') r).1 = (deliver ds' (deliver ds r).1).1.
Proof.
  revert r. induction ds as [|d ds IH]; intros r; [done|].
  simpl. by rewrite !and_then_state, IH.
Qed.

Lemma handler_end_marker_flag ok data r :
  (8 ≤ length data)%nat →
  length_field data = 0 →
  crc_field data = 0 →
  file_transfer_complete (notification_handler ok data r).1 = true.
Proof.
  intros Hlen Hl Hc. unfold notification_handler.
  destruct (Nat.ltb_spec (length data) 8) as [?|_]; [lia|].
  by rewrite Hl, Hc.
Qed.

(** When an end marker is among the frames delivered during a pass of the
    driving loop, the loop is left at that pass through the end-marker
    break, whatever else arrived before or after it in that pass and
    however many bytes are still missing; nothing more is delivered to the
    output by the loop. *)
Theorem end_marker_ends_loop t ts v r d :
  N.of_nat (length (received_data r)) < file_size r →
  file_transfer_complete r = false →
  d ∈ arrivals t →
  (8 ≤ length (frame d))%nat →
  length_field (frame d) = 0 →
  crc_field (frame d) = 0 →
  (download_loop (t :: ts) v r).2 = Some BreakEof ∧
  (download_loop (t :: ts) v r).1.1 = (deliver (arrivals t) r).1.
Proof.
  intros Hrun Hc Hd Hlen Hl Hcrc.
  assert (file_transfer_complete (deliver (arrivals t) r).1 = true) as Hdone.
  { apply list_elem_of_split in Hd as (before & after & ->).
    rewrite deliver_app_state. simpl deliver. rewrite and_then_state.
    by apply deliver_complete_sticky, handler_end_marker_flag. }
  simpl. apply N.ltb_lt in Hrun. rewrite Hrun, Hc. simpl.
  unfold loop_body. destruct (deliver (arrivals t) r) as [r1 e1].
  simpl in Hdone. by rewrite Hdone.
Qed.

Lemma end_marker_ends_loop_witness :
  (download_loop [mkTick short_transfer true [] 500] (mkVars 0 0) (fresh 1000)).2
    = Some BreakEof ∧
  (download_loop [mkTick short_transfer true [] 500] (mkVars 0 0) (fresh 1000)).1.1
    = (deliver short_transfer (fresh 1000)).1.
Proof.
  apply (end_marker_ends_loop (mkTick short_transfer true [] 500) []
           (mkVars 0 0) (fresh 1000) (mkDelivery (eof_frame 1) true));
    try reflexivity.
  apply list_elem_of_further, list_elem_of_here.
Defined.

(** ** What a successful return means *)

Lemma stall_check_nearly t v r :
  (stall_check t v r).2 = inr BreakNearlyComplete →
  (stall_check t v r).1.1 = r ∧ progress_ge_99 r = true.
Proof. unfold stall_check. repeat case_match; simpl; try done. Qed.

Lemma stall_check_exit t v r x :
  (stall_check t v r).2 = inr x → x = BreakNearlyComplete.
Proof.
  unfold stall_check. repeat case_match; simpl; try done. by intros [= <-].
Qed.

Lemma loop_body_exit t v r x :
  (loop_body t v r).2 = inr x →
  let r' := (loop_body t v r).1.1 in
  match x with
  | BreakEof => file_transfer_complete r' = true
  | BreakNearlyComplete => progress_ge_99 r' = true
  | ReturnTimeout => received_data r' = []
  | ConditionFalse => False
  end.
Proof.
  unfold loop_body. destruct (deliver (arrivals t) r) as [r1 e1].
  destruct (file_transfer_complete r1) eqn:Hc; simpl.
  { by intros [= <-]. }
  pose proof (stall_check_nearly t v r1) as Hnear.
  pose proof (stall_check_exit t v r1) as Hexit.
  destruct (stall_check t v r1) as [[r2 e2] [v'|y]]; simpl in *.
  - destruct (N.ltb_spec 60000 (elapsed_ms t)); simpl; [|done].
    destruct (Nat.eqb_spec (length (received_data r2)) 0) as [Hz|?]; simpl;
      [|done].
    intros [= <-]. by apply length_zero_iff_nil.
  - intros [= <-]. rewrite (Hexit y eq_refl) in *.
    by destruct (Hnear eq_refl) as [-> ?].
Qed.

Lemma download_loop_exit ts v r x :
  (download_loop ts v r).2 = Some x →
  let r' := (download_loop ts v r).1.1 in
  match x with
  | ConditionFalse =>
      file_size r' ≤ N.of_nat (length (received_data r')) ∨
      file_transfer_complete r' = true
  | BreakEof => file_transfer_complete r' = true
  | BreakNearlyComplete => progress_ge_99 r' = true
  | ReturnTimeout => received_data r' = []
  end.
Proof.
  revert v r. induction ts as [|t ts IH]; intros v r; simpl.
  - destruct (N.ltb_spec (N.of_nat (length (received_data r))) (file_size r));
      destruct (file_transfer_complete r) eqn:Hc; simpl; try done;
      intros [= <-]; simpl; auto.
  - destruct (N.ltb_spec (N.of_nat (length (received_data r))) (file_size r));
      destruct (file_transfer_complete r) eqn:Hc; simpl;
      try (intros [= <-]; simpl; by auto).
    pose proof (loop_body_exit t v r) as Hbody.
    destruct (loop_body t v r) as [[r1 e1] [v'|y]]; simpl in *.
    + specialize (IH v' r1).
      destruct (download_loop ts v' r1) as [[r2 e2] z]. simpl in *. done.
    + intros [= <-]. specialize (Hbody y eq_refl). by destruct y.
Qed.

(** When [download_file] returns [True], the end marker has been received,
    or the output is at least as long as the declared size, or the
    transfer stalled with at least 99% of the declared size received:
    success never means anything else. *)
Theorem success_means env r o :
  (download_file env r).2 = Some o →
  returned o = true →
  let r' := (download_file env r).1.1 in
  file_transfer_complete r' = true ∨
  file_size r' ≤ N.of_nat (length (received_data r')) ∨
  (0 < file_size r' ∧
   99 * file_size r' ≤ 100 * N.of_nat (length (received_data r'))).
Proof.
  unfold download_file. destruct (start_ok env); simpl.
  2:{ intros [= <-]. done. }
  destruct (send_credits 64 _ _ (reset r)) as [r1 e1].
  pose proof (download_loop_exit (ticks env) (mkVars 0 0) r1) as Hexit.
  destruct (download_loop (ticks env) (mkVars 0 0) r1) as [[r2 e2] x].
  simpl in Hexit.
  destruct x as [x|]; [|done]. specialize (Hexit x eq_refl).
  destruct x; simpl; try (by intros [= <-]);
    destruct (stop_ok env); simpl; intros [= <-] Hret; try done.
  - destruct Hexit; auto.
  - auto.
  - right. right. by apply progress_ge_99_spec.
Qed.

Lemma success_means_witness :
  let r' := (download_file
               (mkEnv true true [] [mkTick short_transfer true [] 500] true)
               (fresh 1000)).1.1 in
  file_transfer_complete r' = true ∨
  file_size r' ≤ N.of_nat (length (received_data r')) ∨
  (0 < file_size r' ∧
   99 * file_size r' ≤ 100 * N.of_nat (length (received_data r'))).
Proof.
  apply (success_means
           (mkEnv true true [] [mkTick short_transfer true [] 500] true)
           (fresh 1000) Complete); reflexivity.
Defined.

(** ** What the credit cadence can grant *)

Lemma after_validation_credit ok seq crc payload r :
  let r' := (after_validation ok seq crc payload r).1 in
  let w := credit_writes (after_validation ok seq crc payload r).2 in
  (w = [] ∨ (w = [2] ∧ total_packets r' mod 2 = 0)) ∧
  credits_sent r' = credits_sent r + (if ok then total_credits w else 0).
Proof.
  unfold after_validation. cbn [expected_seq set_total_packets].
  set (note := if negb _ then _ else _).
  assert (credit_writes note = []) as Hnote by (unfold note; by case_match).
  destruct (seq <? expected_seq r).
  { simpl. rewrite Hnote. split; [by left|]. destruct ok; simpl; lia. }
  rewrite !and_then_state, !and_then_events, !credit_writes_app.
  cbn [say fst snd]. rewrite Hnote.
  set (ordered :=
         (if seq =? expected_seq r
          then accept_in_order payload
          else buffer_out_of_order seq payload)
           (set_total_packets (total_packets r + 1) r)).
  assert (credit_writes ordered.2 = [] ∧
          total_packets ordered.1 = total_packets r + 1 ∧
          credits_sent ordered.1 = credits_sent r) as (Hw & Htp & Hcs).
  { unfold ordered. case_match.
    - exact (accept_in_order_no_credit _
               (set_total_packets (total_packets r + 1) r)).
    - exact (buffer_out_of_order_no_credit _ _
               (set_total_packets (total_packets r + 1) r)). }
  destruct (credit_cadence_writes ok ordered.1) as [Hcw Hcc].
  rewrite Hw, Hcw, Hcc, Hcs, credit_cadence_total_packets. simpl.
  destruct (N.eqb_spec (total_packets ordered.1 mod 2) 0) as [Heven|?]; simpl.
  - split; [by right|]. by destruct ok.
  - split; [by left|]. destruct ok; simpl; lia.
Qed.

Lemma handler_credit ok data r :
  let r' := (notification_handler ok data r).1 in
  let w := credit_writes (notification_handler ok data r).2 in
  (w = [] ∨ (w = [2] ∧ total_packets r' mod 2 = 0 ∧
             total_packets r' = total_packets r + 1)) ∧
  total_packets r ≤ total_packets r' ∧
  credits_sent r' = credits_sent r + (if ok then total_credits w else 0).
Proof.
  unfold notification_handler.
  destruct (length data <? 8)%nat;
    [simpl; split; [by left|split; [lia|destruct ok; simpl; lia]]|].
  destruct ((length_field data =? 0) && (crc_field data =? 0));
    [simpl; split; [by left|split; [lia|destruct ok; simpl; lia]]|].
  destruct (negb (N.of_nat (length (payload_of data)) =? length_field data));
    [simpl; split; [by left|split; [lia|destruct ok; simpl; lia]]|].
  destruct (after_validation_credit ok (seq_field data) (crc_field data)
              (payload_of data) r) as [Hw Hc].
  rewrite after_validation_total_packets in *.
  split; [|split; [lia|done]].
  destruct Hw as [?|[? ?]]; [by left|by right].
Qed.

Lemma total_credits_app cs cs' :
  total_credits (cs ++ cs') = total_credits cs + total_credits cs'.
Proof. induction cs as [|c cs IH]; simpl; [done|]. rewrite IH. lia. Qed.

(** The cadence of the handler writes nothing but amounts of 2, and at
    most one of them for each even value the packet counter passes: over
    any run of handler invocations the credits it grants never exceed the
    number of validated frames received by more than one. *)
Theorem cadence_never_overgrants ds r :
  let r' := (deliver ds r).1 in
  let w := credit_writes (deliver ds r).2 in
  Forall (λ c, c = 2) w ∧
  N.of_nat (length w) ≤ total_packets r' / 2 - total_packets r / 2 ∧
  total_credits w ≤ total_packets r' - total_packets r + 1.
Proof.
  assert (Forall (λ c, c = 2) (credit_writes (deliver ds r).2) ∧
          total_packets r ≤ total_packets (deliver ds r).1 ∧
          N.of_nat (length (credit_writes (deliver ds r).2)) ≤
            total_packets (deliver ds r).1 / 2 - total_packets r / 2 ∧
          total_credits (credit_writes (deliver ds r).2) =
            2 * N.of_nat (length (credit_writes (deliver ds r).2)))
    as (Hall & Hle & Hcount & Hsum).
  { revert r. induction ds as [|d ds IH]; intros r.
    { simpl. split; [constructor|]. split; [lia|]. split; lia. }
    simpl deliver. rewrite and_then_state, and_then_events, credit_writes_app.
    destruct (handler_credit (credit_ok d) (frame d) r) as (Hw & Hmono & _).
    destruct (IH (notification_handler (credit_ok d) (frame d) r).1)
      as (IHall & IHle & IHcount & IHsum).
    rewrite length_app, total_credits_app, IHsum.
    destruct Hw as [->|(-> & Heven & Hnext)]; simpl.
    - split; [done|]. split; [lia|]. split; [div_lia|lia].
    - split; [by constructor|]. split; [lia|]. split; [div_lia|lia]. }
  simpl. split; [done|]. split; [done|]. rewrite Hsum. div_lia.
Qed.

Lemma per_call_events ds r :
  concat (snd <$> per_call ds r) = (deliver ds r).2.
Proof.
  revert r. induction ds as [|d ds IH]; intros r; [done|].
  simpl deliver. rewrite and_then_events. simpl. by rewrite IH.
Qed.

Lemma credited_le calls :
  credited calls ≤ total_credits (credit_writes (concat (snd <$> calls))).
Proof.
  induction calls as [|[d es] calls IH]; [simpl; lia|].
  rewrite fmap_cons. cbn [concat credited foldr fst snd].
  rewrite credit_writes_app, total_credits_app.
  fold (credited calls). destruct (credit_ok d); lia.
Qed.

(** [credits_sent] counts exactly the credits of the writes that went
    through: over any run of handler invocations it grows by what each
    invocation wrote when its write succeeded and by nothing when the write
    failed.  So it never counts more than was written to the credit
    characteristic, counts all of it when every write succeeds, and does
    not move when every write fails. *)
Theorem credits_sent_accounting ds r :
  concat (snd <$> per_call ds r) = (deliver ds r).2 ∧
  credits_sent (deliver ds r).1 = credits_sent r + credited (per_call ds r) ∧
  credits_sent (deliver ds r).1 ≤
    credits_sent r + total_credits (credit_writes (deliver ds r).2) ∧
  (Forall (λ d, credit_ok d = true) ds →
   credits_sent (deliver ds r).1 =
     credits_sent r + total_credits (credit_writes (deliver ds r).2)) ∧
  (Forall (λ d, credit_ok d = false) ds →
   credits_sent (deliver ds r).1 = credits_sent r).
Proof.
  assert (∀ ds r,
            credits_sent (deliver ds r).1 =
              credits_sent r + credited (per_call ds r)) as Hexact.
  { clear. intros ds. induction ds as [|d ds IH]; intros r.
    { simpl. lia. }
    simpl deliver. rewrite and_then_state. cbn [per_call credited foldr fst snd].
    fold (credited
            (per_call ds (notification_handler (credit_ok d) (frame d) r).1)).
    destruct (handler_credit (credit_ok d) (frame d) r) as (_ & _ & Hc).
    rewrite IH, Hc. lia. }
  split; [apply per_call_events|]. split; [apply Hexact|]. split; [|split].
  - rewrite Hexact, <- per_call_events.
    pose proof (credited_le (per_call ds r)). lia.
  - revert r. induction ds as [|d ds IH]; intros r.
    { simpl. lia. }
    intros [Hd Hds]%Forall_cons.
    simpl deliver. rewrite and_then_state, and_then_events, credit_writes_app,
      total_credits_app.
    destruct (handler_credit (credit_ok d) (frame d) r) as (_ & _ & Hc).
    rewrite IH by done. rewrite Hc, Hd. lia.
  - intros Hfail. rewrite Hexact.
    assert (credited (per_call ds r) = 0) as ->; [|lia].
    revert r. induction Hfail as [|d ds Hd _ IH]; intros r; [done|].
    cbn [per_call credited foldr fst snd]. rewrite Hd.
    fold (credited
            (per_call ds (notification_handler (credit_ok d) (frame d) r).1)).
    by rewrite IH.
Qed.

Lemma credits_sent_accounting_witness :
  (credits_sent (deliver one_write_fails (fresh 1000)).1 = 2 ∧
   credit_writes (deliver one_write_fails (fresh 1000)).2 = [2; 2] ∧
   credited (per_call one_write_fails (fresh 1000)) = 2) ∧
  credits_sent (deliver arrival_1_0_2 (fresh 1000)).1 =
    credits_sent (fresh 1000) +
    total_credits (credit_writes (deliver arrival_1_0_2 (fresh 1000)).2) ∧
  credits_sent
    (deliver [mkDelivery (data_frame 0 [x41]) false;
              mkDelivery (data_frame 1 [x42]) false] (fresh 1000)).1 =
    credits_sent (fresh 1000).
Proof.
  destruct (credits_sent_accounting one_write_fails (fresh 1000))
    as (Hevents & Hexact & _).
  destruct (credits_sent_accounting arrival_1_0_2 (fresh 1000))
    as (_ & _ & _ & Hall & _).
  destruct (credits_sent_accounting
              [mkDelivery (data_frame 0 [x41]) false;
               mkDelivery (data_frame 1 [x42]) false] (fresh 1000))
    as (_ & _ & _ & _ & Hnone).
  split; [|split].
  - split; [etrans; [exact Hexact|]; vm_compute; reflexivity|].
    split; vm_compute; reflexivity.
  - apply Hall. repeat constructor.
  - apply Hnone. repeat constructor.
Defined.

(** ** Saving without overwriting *)

Lemma string_length_app (s t : string) :
  String.length (s +:+ t) = (String.length s + String.length t)%nat.
Proof. induction s as [|a s IH]; simpl; [done|by rewrite IH]. Qed.

Lemma string_app_inv_tail (s1 s2 t : string) : s1 +:+ t = s2 +:+ t → s1 = s2.
Proof.
  revert s2. induction s1 as [|a s1 IH]; intros [|b s2] Heq; simpl in *.
  - done.
  - apply (f_equal String.length) in Heq.
    rewrite !string_length_app in Heq. simpl in Heq. lia.
  - apply (f_equal String.length) in Heq.
    rewrite !string_length_app in Heq. simpl in Heq. lia.
  - injection Heq as -> Heq. f_equal. by apply IH.
Qed.

Lemma numbered_path_inj stem suffix in_parent :
  Inj (=) (=) in_parent → Inj (=) (=) (numbered_path stem suffix in_parent).
Proof.
  intros Hinj n m Heq. unfold numbered_path in Heq.
  apply Hinj in Heq. apply String.app_inj in Heq. apply String.app_inj in Heq.
  apply string_app_inv_tail in Heq. by apply (inj pretty).
Qed.

Section free_path_facts.
Variables (stem suffix : string) (in_parent : string → string).
Variable fs : gmap string bytes.

Lemma free_path_Some fuel p c q :
  free_path stem suffix in_parent fs fuel p c = Some q →
  fs !! q = None ∧
  (q = p ∨
   is_Some (fs !! p) ∧
   ∃ k, (c ≤ k)%nat ∧ q = numbered_path stem suffix in_parent k ∧
        ∀ j, (c ≤ j < k)%nat →
             is_Some (fs !! numbered_path stem suffix in_parent j)).
Proof.
  revert p c. induction fuel as [|fuel IH]; intros p c; simpl.
  - destruct (fs !! p) eqn:Hp; [done|]. intros [= <-]. auto.
  - destruct (fs !! p) eqn:Hp; [|intros [= <-]; auto].
    intros [Hfree Hq]%IH. split; [done|]. right. split; [done|].
    destruct Hq as [->|(Hc & k & Hk & -> & Hbelow)].
    + exists c. split; [lia|]. split; [done|]. intros j Hj. lia.
    + exists k. split; [lia|]. split; [done|]. intros j Hj.
      destruct (decide (j = c)) as [->|?]; [done|]. apply Hbelow. lia.
Qed.

Lemma free_path_None fuel p c :
  free_path stem suffix in_parent fs fuel p c = None →
  ∀ j, (c ≤ j < c + fuel)%nat →
       is_Some (fs !! numbered_path stem suffix in_parent j).
Proof.
  revert p c. induction fuel as [|fuel IH]; intros p c; simpl.
  - intros _ j Hj. lia.
  - destruct (fs !! p) eqn:Hp; [|done]. intros Hnone j Hj.
    destruct (decide (j = c)) as [->|?].
    + destruct fuel; simpl in Hnone;
        destruct (fs !! numbered_path stem suffix in_parent c); done.
    + apply (IH _ _ Hnone). lia.
Qed.

(** The loop ends: among [size fs + 1] numbered names one is free. *)
Lemma free_path_found p :
  Inj (=) (=) in_parent →
  is_Some (free_path stem suffix in_parent fs (S (size fs)) p 1).
Proof.
  intros Hinj.
  destruct (free_path stem suffix in_parent fs (S (size fs)) p 1) eqn:Hfp;
    [by eexists|].
  exfalso. pose proof (free_path_None _ _ _ Hfp) as Hall.
  set (names := numbered_path stem suffix in_parent <$> seq 1 (S (size fs))).
  assert (NoDup names) as Hnd.
  { apply NoDup_fmap_2; [by apply numbered_path_inj|apply NoDup_seq]. }
  assert ((list_to_set names : gset string) ⊆ dom fs) as Hsub.
  { intros x Hx. apply elem_of_list_to_set in Hx.
    apply list_elem_of_fmap in Hx as (j & -> & Hj). apply elem_of_seq in Hj.
    apply elem_of_dom, Hall. lia. }
  apply subseteq_size in Hsub.
  rewrite size_list_to_set, size_dom in Hsub by done.
  unfold names in Hsub. rewrite length_fmap, length_seq in Hsub. lia.
Qed.

End free_path_facts.

(** When joining a name to the parent directory is injective, [save_file]
    always finds a path and, the write going through, returns [True]: the
    path it writes did not exist before, it is the original path when that
    is free and otherwise the numbered name with the least counter from 1
    that is free, and every path that existed keeps what it held. *)
Theorem save_file_never_overwrites
    original_path stem suffix in_parent fs data :
  Inj (=) (=) in_parent →
  ∃ p,
    save_file original_path stem suffix in_parent fs true data =
      (true, <[p := data]> fs) ∧
    fs !! p = None ∧
    (fs !! original_path = None → p = original_path) ∧
    (is_Some (fs !! original_path) →
     ∃ k, (1 ≤ k)%nat ∧ p = numbered_path stem suffix in_parent k ∧
          ∀ j, (1 ≤ j < k)%nat →
               is_Some (fs !! numbered_path stem suffix in_parent j)) ∧
    (∀ q held, fs !! q = Some held → <[p := data]> fs !! q = Some held).
Proof.
  intros Hinj. unfold save_file.
  destruct (free_path_found stem suffix in_parent fs original_path Hinj)
    as [p Hp].
  rewrite Hp. exists p. split; [done|].
  apply free_path_Some in Hp as [Hfree Hwhich].
  split; [done|]. split; [|split].
  - intros Horig. destruct Hwhich as [?|[[? Hex] _]]; [done|congruence].
  - intros [held Horig]. destruct Hwhich as [->|[_ Hnum]]; [congruence|done].
  - intros q held Hq. rewrite lookup_insert_ne; [done|]. congruence.
Qed.

Lemma save_file_never_overwrites_witness :
  ∃ p,
    save_file "out/rec.wav" "rec" ".wav" (String.append "out/")
      {["out/rec.wav" := [x00]; "out/rec_1.wav" := [x01]]} true [x41] =
      (true, <[p := [x41]]> {["out/rec.wav" := [x00]; "out/rec_1.wav" := [x01]]}) ∧
    ({["out/rec.wav" := [x00]; "out/rec_1.wav" := [x01]]} : gmap string bytes) !! p
      = None ∧
    p = "out/rec_2.wav".
Proof.
  destruct (save_file_never_overwrites "out/rec.wav" "rec" ".wav"
              (String.append "out/")
              {["out/rec.wav" := [x00]; "out/rec_1.wav" := [x01]]} [x41])
    as (p & Hsave & Hfree & _ & Hnum & _); [apply _|].
  exists p. split; [exact Hsave|]. split; [exact Hfree|].
  clear Hsave.
  destruct Hnum as (k & Hk & -> & Hbelow);
    [exists [x00]; vm_compute; reflexivity|].
  destruct k as [|[|[|k]]].
  - exfalso. clear -Hk. lia.
  - vm_compute in Hfree. discriminate Hfree.
  - vm_compute. reflexivity.
  - destruct (Hbelow 2%nat) as [held Hheld]; [clear; lia|].
    vm_compute in Hheld. discriminate Hheld.
Defined.

(** ** The file information record *)

Lemma unpack_le_bound b : unpack_le b < 256 ^ N.of_nat (length b).
Proof.
  induction b as [|x b IH]; [done|].
  cbn [unpack_le length]. rewrite Nat2N.inj_succ, N.pow_succ_r'.
  pose proof (Byte.to_N_bounded x). lia.
Qed.

Lemma find_nul_Some name_bytes n :
  find_nul name_bytes = Some n →
  (x00 ∉ take n name_bytes) ∧ name_bytes !! n = Some x00.
Proof.
  revert n. induction name_bytes as [|x rest IH]; intros n; simpl; [done|].
  destruct (Byte.eqb x x00) eqn:Hx.
  - intros [= <-]. apply Byte.byte_dec_bl in Hx as ->. split; [|done].
    simpl. apply not_elem_of_nil.
  - destruct (find_nul rest) as [m|]; [|done]. simpl. intros [= <-].
    destruct (IH m eq_refl) as [Hfree Hat]. split; [|done].
    simpl. intros [Heq|?]%elem_of_cons; [|done].
    apply Byte.eqb_false in Hx. congruence.
Qed.

Lemma find_nul_None name_bytes : find_nul name_bytes = None ↔ x00 ∉ name_bytes.
Proof.
  induction name_bytes as [|x rest IH]; simpl.
  { split; [intros _; apply not_elem_of_nil|done]. }
  destruct (Byte.eqb x x00) eqn:Hx.
  - apply Byte.byte_dec_bl in Hx as ->. split; [done|].
    intros Hnot. exfalso. apply Hnot, list_elem_of_here.
  - apply Byte.eqb_false in Hx. destruct (find_nul rest) as [m|]; simpl.
    + split; [done|]. intros Hnot. exfalso.
      assert (x00 ∉ rest) as Hrest
        by (intros ?; by apply Hnot, list_elem_of_further).
      by apply IH in Hrest.
    + split; [|done]. intros _ [?|?]%elem_of_cons; [done|].
      by apply (proj1 IH eq_refl).
Qed.

Lemma find_nul_terminated name padding :
  x00 ∉ name → find_nul (name ++ x00 :: padding) = Some (length name).
Proof.
  induction name as [|x name IH]; intros Hfree; simpl; [done|].
  destruct (Byte.eqb x x00) eqn:Hx.
  - apply Byte.byte_dec_bl in Hx as ->. exfalso. apply Hfree, list_elem_of_here.
  - rewrite IH; [done|]. intros ?. by apply Hfree, list_elem_of_further.
Qed.

(** [read_file_info] inverts the layout [[u32 size][name][NUL][padding]]:
    it stores the size, and the name is the decoded bytes before the first
    NUL, whatever follows it; with no NUL at all the whole rest is decoded
    and then stripped. *)
Theorem read_file_info_layout {text : Type}
    (decode : bytes → option text) (rstrip_nul : text → text)
    size name padding decoded r old_name :
  size < 2 ^ 32 →
  x00 ∉ name →
  decode name = Some decoded →
  read_file_info decode rstrip_nul
    (Some (pack_le 4 size ++ name ++ x00 :: padding)) r old_name =
    (true, set_file_size size r, decoded) ∧
  read_file_info decode rstrip_nul (Some (pack_le 4 size ++ name)) r old_name =
    (true, set_file_size size r, rstrip_nul decoded).
Proof.
  intros Hsize Hfree Hdec.
  assert (∀ rest, unpack_le (take 4 (pack_le 4 size ++ rest)) = size) as Hsz.
  { intros rest. change (take 4 (pack_le 4 size ++ rest)) with (pack_le 4 size).
    rewrite unpack_pack_le. by apply N.mod_small. }
  assert (∀ rest, drop 4 (pack_le 4 size ++ rest) = rest) as Hdrop by done.
  unfold read_file_info. split.
  - destruct (Nat.ltb_spec (length (pack_le 4 size ++ name ++ x00 :: padding)) 4)
      as [Hshort|_].
    { rewrite length_app, pack_le_length in Hshort. lia. }
    rewrite Hsz, Hdrop, find_nul_terminated by done.
    by rewrite take_app_length, Hdec.
  - destruct (Nat.ltb_spec (length (pack_le 4 size ++ name)) 4) as [Hshort|_].
    { rewrite length_app, pack_le_length in Hshort. lia. }
    rewrite Hsz, Hdrop. apply find_nul_None in Hfree. by rewrite Hfree, Hdec.
Qed.

Lemma read_file_info_layout_witness :
  read_file_info (λ b, Some b) id
    (Some (pack_le 4 48000 ++ [x61; x62] ++ x00 :: [x00; x00])) (fresh 0) [] =
    (true, set_file_size 48000 (fresh 0), [x61; x62]) ∧
  read_file_info (λ b, Some b) id
    (Some (pack_le 4 48000 ++ [x61; x62])) (fresh 0) [] =
    (true, set_file_size 48000 (fresh 0), id [x61; x62]).
Proof.
  apply (read_file_info_layout (λ b, Some b) id 48000 [x61; x62] [x00; x00]
           [x61; x62] (fresh 0) []); [reflexivity| |reflexivity].
  intros [[=]|[[=]|?%elem_of_nil]%elem_of_cons]%elem_of_cons. done.
Defined.

(** What a successful [read_file_info] leaves behind: a declared size below
    2^32, read from the first four bytes, the rest of the receiver
    untouched, and a name decoded from the bytes of the name field before
    its first NUL (all of them up to that NUL and none after), or, when the
    field holds no NUL, from the whole field and then stripped. *)
Theorem read_file_info_success {text : Type}
    (decode : bytes → option text) (rstrip_nul : text → text)
    info r old_name r' name :
  read_file_info decode rstrip_nul (Some info) r old_name = (true, r', name) →
  (4 ≤ length info)%nat ∧
  r' = set_file_size (unpack_le (take 4 info)) r ∧
  file_size r' < 2 ^ 32 ∧
  ((∃ n, drop 4 info !! n = Some x00 ∧
         (x00 ∉ take n (drop 4 info)) ∧
         decode (take n (drop 4 info)) = Some name) ∨
   ((x00 ∉ drop 4 info) ∧
    rstrip_nul <$> decode (drop 4 info) = Some name)).
Proof.
  unfold read_file_info.
  destruct (Nat.ltb_spec (length info) 4) as [?|Hlen]; [done|].
  destruct (find_nul (drop 4 info)) as [n|] eqn:Hnul.
  - destruct (decode (take n (drop 4 info))) as [t|] eqn:Hdec; [|done].
    intros [= <- <-]. split; [done|]. split; [done|]. split.
    + simpl. pose proof (unpack_le_bound (take 4 info)) as Hbound.
      rewrite length_take, Nat.min_l in Hbound by lia. exact Hbound.
    + left. exists n. apply find_nul_Some in Hnul as [Hfree Hat]. done.
  - destruct (decode (drop 4 info)) as [t|] eqn:Hdec; [|done].
    cbn [fmap option_fmap option_map].
    intros [= <- <-]. split; [done|]. split; [done|]. split.
    + simpl. pose proof (unpack_le_bound (take 4 info)) as Hbound.
      rewrite length_take, Nat.min_l in Hbound by lia. exact Hbound.
    + right. split; [by apply find_nul_None|done].
Qed.

Lemma read_file_info_success_witness :
  (4 ≤ length (pack_le 4 48000 ++ [x61; x62; x00; x63]))%nat ∧
  set_file_size 48000 (fresh 0) =
    set_file_size
      (unpack_le (take 4 (pack_le 4 48000 ++ [x61; x62; x00; x63]))) (fresh 0) ∧
  file_size (set_file_size 48000 (fresh 0)) < 2 ^ 32 ∧
  ((∃ n, drop 4 (pack_le 4 48000 ++ [x61; x62; x00; x63]) !! n = Some x00 ∧
         (x00 ∉ take n (drop 4 (pack_le 4 48000 ++ [x61; x62; x00; x63]))) ∧
         Some (take n (drop 4 (pack_le 4 48000 ++ [x61; x62; x00; x63]))) =
           Some [x61; x62]) ∨
   ((x00 ∉ drop 4 (pack_le 4 48000 ++ [x61; x62; x00; x63])) ∧
    id <$> Some (drop 4 (pack_le 4 48000 ++ [x61; x62; x00; x63])) =
      Some [x61; x62])).
Proof.
  apply (read_file_info_success (λ b, Some b) id
           (pack_le 4 48000 ++ [x61; x62; x00; x63]) (fresh 0) []
           (set_file_size 48000 (fresh 0)) [x61; x62]).
  reflexivity.
Defined.

(** ** Choosing the device *)

Section last_match.
Context {A : Type} (P : A → bool).

Lemma foldl_no_match init l :
  Forall (λ x, P x = false) l →
  foldl (λ found x, if P x then Some x else found) init l = init.
Proof.
  revert init. induction l as [|x l IH]; intros init Hl; [done|].
  apply Forall_cons in Hl as [Hx Hl]. simpl. rewrite Hx. by apply IH.
Qed.

Lemma foldl_last_match init before x after :
  P x = true →
  Forall (λ y, P y = false) after →
  foldl (λ found y, if P y then Some y else found) init (before ++ x :: after)
    = Some x.
Proof.
  intros Hx Hafter. rewrite foldl_app. simpl. rewrite Hx.
  by apply foldl_no_match.
Qed.

Lemma foldl_match_None init l :
  foldl (λ found x, if P x then Some x else found) init l = None →
  init = None ∧ Forall (λ x, P x = false) l.
Proof.
  revert init. induction l as [|x l IH]; intros init; simpl; [done|].
  intros [Hinit Hl]%IH. destruct (P x) eqn:Hx; [done|].
  split; [done|]. by constructor.
Qed.

End last_match.

(** [scan_for_device] prefers the service UUID to the name: when some
    device advertises the UUID, the last such device discovered is
    returned whatever the names; otherwise the last device whose name
    contains XIAO or REC; and nothing exactly when no device matches either
    way. *)
Theorem scan_prefers_service_uuid upper lower devices before d after :
  devices = before ++ d :: after →
  (uuid_matches lower d = true →
   Forall (λ x, uuid_matches lower x = false) after →
   scan_for_device upper lower devices = Some d) ∧
  (Forall (λ x, uuid_matches lower x = false) devices →
   name_matches upper d = true →
   Forall (λ x, name_matches upper x = false) after →
   scan_for_device upper lower devices = Some d) ∧
  (scan_for_device upper lower devices = None ↔
   Forall (λ x, uuid_matches lower x = false ∧ name_matches upper x = false)
     devices).
Proof.
  intros ->. unfold scan_for_device. split; [|split].
  - intros Hd Hafter. by apply foldl_last_match.
  - intros Hnone Hd Hafter. rewrite foldl_no_match by done.
    by apply foldl_last_match.
  - split.
    + intros [Hname Huuid]%foldl_match_None.
      apply foldl_match_None in Hname as [_ Hname].
      apply Forall_forall. intros x Hx.
      split; [by eapply Forall_forall in Huuid|by eapply Forall_forall in Hname].
    + intros Hall. rewrite !foldl_no_match; [done| |].
      * eapply Forall_impl; [exact Hall|]. by intros x [_ ?].
      * eapply Forall_impl; [exact Hall|]. by intros x [? _].
Qed.

Lemma scan_prefers_service_uuid_witness :
  scan_for_device id id
    [mkDevice (Some "Speaker") "AA" (Some [UUID_SVC_FILE]);
     mkDevice (Some "XIAO-REC") "BB" None] =
    Some (mkDevice (Some "Speaker") "AA" (Some [UUID_SVC_FILE])) ∧
  scan_for_device id id
    [mkDevice (Some "XIAO-REC") "BB" None; mkDevice None "CC" None] =
    Some (mkDevice (Some "XIAO-REC") "BB" None).
Proof.
  split.
  - apply (proj1 (scan_prefers_service_uuid id id _ []
                    (mkDevice (Some "Speaker") "AA" (Some [UUID_SVC_FILE]))
                    [mkDevice (Some "XIAO-REC") "BB" None] eq_refl)).
    + reflexivity.
    + by repeat constructor.
  - apply (proj1 (proj2 (scan_prefers_service_uuid id id _ []
                           (mkDevice (Some "XIAO-REC") "BB" None)
                           [mkDevice None "CC" None] eq_refl))).
    + by repeat constructor.
    + reflexivity.
    + by repeat constructor.
Defined.

(** ** Duplicates *)

Lemma after_validation_settles ok seq crc payload r :
  seq ≤ expected_seq r + 50 →
  let r1 := (after_validation ok seq crc payload r).1 in
  seq < expected_seq r1 ∨
  expected_seq r1 < seq ∧ is_Some (packet_buffer r1 !! seq).
Proof.
  intros Hwin. unfold after_validation. cbn [expected_seq set_total_packets].
  destruct (N.ltb_spec seq (expected_seq r)) as [?|Hge]; [by left|].
  rewrite !and_then_state. cbn [say fst].
  rewrite credit_cadence_expected_seq, credit_cadence_packet_buffer.
  destruct (N.eqb_spec seq (expected_seq r)) as [->|Hne].
  - left. exact (accept_in_order_expected payload
                   (set_total_packets (total_packets r + 1) r)).
  - right. unfold buffer_out_of_order. cbn [packet_buffer set_total_packets].
    destruct (packet_buffer r !! seq) eqn:Hseq.
    + simpl. split; [lia|]. rewrite Hseq. by eexists.
    + cbn [expected_seq set_packet_buffer set_total_packets].
      destruct (N.ltb_spec 50 (seq - expected_seq r)) as [?|_]; [lia|].
      simpl. split; [lia|]. rewrite lookup_insert_eq. by eexists.
Qed.

Lemma after_validation_known ok seq crc payload r :
  seq < expected_seq r ∨ expected_seq r < seq ∧ is_Some (packet_buffer r !! seq) →
  expected_seq (after_validation ok seq crc payload r).1 = expected_seq r ∧
  packet_buffer (after_validation ok seq crc payload r).1 = packet_buffer r ∧
  received_data (after_validation ok seq crc payload r).1 = received_data r.
Proof.
  intros Hknown. unfold after_validation. cbn [expected_seq set_total_packets].
  destruct (N.ltb_spec seq (expected_seq r)) as [?|Hge]; [done|].
  destruct Hknown as [?|[Hlt [held Hin]]]; [lia|].
  rewrite !and_then_state. cbn [say fst].
  rewrite credit_cadence_expected_seq, credit_cadence_packet_buffer,
    credit_cadence_received_data.
  destruct (N.eqb_spec seq (expected_seq r)) as [?|_]; [lia|].
  unfold buffer_out_of_order. cbn [packet_buffer set_total_packets].
  by rewrite Hin.
Qed.

(** A packet that arrives at most 50 ahead of [expected_seq] is taken once:
    a second validated packet with the same sequence number right after
    it, whatever its payload and checksum, leaves the output, the reorder
    buffer and [expected_seq] as the first one left them. *)
Theorem duplicate_is_ignored ok ok' seq crc crc' payload payload' r :
  seq ≤ expected_seq r + 50 →
  let r1 := (after_validation ok seq crc payload r).1 in
  let r2 := (after_validation ok' seq crc' payload' r1).1 in
  expected_seq r2 = expected_seq r1 ∧
  packet_buffer r2 = packet_buffer r1 ∧
  received_data r2 = received_data r1.
Proof.
  intros Hwin r1 r2.
  apply after_validation_known.
  by apply after_validation_settles.
Qed.

Lemma duplicate_is_ignored_witness :
  let r1 := (after_validation true 2 0 [x41] (fresh 1000)).1 in
  let r2 := (after_validation true 2 7 [x42; x43] r1).1 in
  expected_seq r2 = expected_seq r1 ∧
  packet_buffer r2 = packet_buffer r1 ∧
  received_data r2 = received_data r1.
Proof.
  apply (duplicate_is_ignored true true 2 0 7 [x41] [x42; x43] (fresh 1000)).
  vm_compute. discriminate.
Defined.

(** ** What the checksum detects *)

Lemma holds_from_spec test fuel x y :
  holds_from test fuel x = true →
  x ≤ y < x + N.of_nat fuel → test y = true.
Proof.
  revert x. induction fuel as [|fuel IH]; intros x; simpl; [lia|].
  intros [Hx Hrest]%andb_true_iff Hy.
  destruct (decide (y = x)) as [->|?]; [done|].
  apply (IH _ Hrest). lia.
Qed.

Lemma crc_unround_all :
  holds_from (λ x, crc_unround (crc_round x) =? x) (Nat.pow 2 16) 0 = true.
Proof. vm_compute. reflexivity. Qed.

Lemma crc_unround_round x : x < 65536 → crc_unround (crc_round x) = x.
Proof.
  intros Hx. apply N.eqb_eq.
  apply (holds_from_spec (λ x, crc_unround (crc_round x) =? x)
           (Nat.pow 2 16) 0 x crc_unround_all).
  change (N.of_nat (Nat.pow 2 16)) with 65536. lia.
Qed.

Lemma crc_round_inj a b :
  a < 65536 → b < 65536 → crc_round a = crc_round b → a = b.
Proof.
  intros Ha Hb Heq.
  by rewrite <- (crc_unround_round a), <- (crc_unround_round b), Heq.
Qed.

Lemma iter_crc_round_bound n a : a < 65536 → Nat.iter n crc_round a < 65536.
Proof. intros Ha. destruct n; simpl; [done|apply crc_round_bound]. Qed.

Lemma iter_crc_round_inj n a b :
  a < 65536 → b < 65536 →
  Nat.iter n crc_round a = Nat.iter n crc_round b → a = b.
Proof.
  intros Ha Hb. induction n as [|n IH]; simpl; [done|].
  intros Heq. apply IH.
  apply crc_round_inj; [by apply iter_crc_round_bound..|done].
Qed.

Lemma lxor_fits a b : a < 65536 → b < 65536 → N.lxor a b < 65536.
Proof.
  intros Ha Hb.
  assert (∀ c, c < 65536 → N.log2 c < 16) as Hlog.
  { intros c Hc. destruct (N.eq_dec c 0) as [->|?]; [done|].
    apply N.log2_lt_pow2; [lia|done]. }
  destruct (N.eq_dec (N.lxor a b) 0) as [->|?]; [done|].
  change 65536 with (2 ^ 16). apply N.log2_lt_pow2; [lia|].
  eapply N.le_lt_trans; [apply N.log2_lxor|].
  apply N.max_lub_lt; by apply Hlog.
Qed.

Lemma byte_shift_fits x : N.shiftl (Byte.to_N x) 8 < 65536.
Proof.
  rewrite N.shiftl_mul_pow2. pose proof (Byte.to_N_bounded x).
  change (2 ^ 8) with 256. lia.
Qed.

Lemma lxor_cancel_r a b c : N.lxor a c = N.lxor b c → a = b.
Proof.
  intros Heq.
  assert (∀ x, N.lxor (N.lxor x c) c = x) as Hback.
  { intros x. by rewrite N.lxor_assoc, N.lxor_nilpotent, N.lxor_0_r. }
  by rewrite <- (Hback a), <- (Hback b), Heq.
Qed.

Lemma crc_byte_inj_register c c' x :
  c < 65536 → c' < 65536 → crc_byte c x = crc_byte c' x → c = c'.
Proof.
  intros Hc Hc' Heq. unfold crc_byte in Heq.
  apply iter_crc_round_inj in Heq;
    [|apply lxor_fits; [done|apply byte_shift_fits]..].
  by apply lxor_cancel_r in Heq.
Qed.

Lemma crc_byte_inj_byte c x x' :
  c < 65536 → crc_byte c x = crc_byte c x' → x = x'.
Proof.
  intros Hc Heq. unfold crc_byte in Heq.
  apply iter_crc_round_inj in Heq;
    [|apply lxor_fits; [done|apply byte_shift_fits]..].
  rewrite (N.lxor_comm c), (N.lxor_comm c) in Heq.
  apply lxor_cancel_r in Heq. rewrite !N.shiftl_mul_pow2 in Heq.
  apply N.mul_cancel_r in Heq; [|done].
  pose proof (Byte.of_to_N x) as Hx. pose proof (Byte.of_to_N x') as Hx'.
  rewrite Heq in Hx. congruence.
Qed.

Lemma fold_crc_inj data c c' :
  c < 65536 → c' < 65536 →
  fold_left crc_byte data c = fold_left crc_byte data c' → c = c'.
Proof.
  revert c c'. induction data as [|x data IH]; intros c c' Hc Hc'; [done|].
  simpl. intros Heq. apply IH in Heq; [|apply crc_byte_bound..].
  by apply crc_byte_inj_register in Heq.
Qed.

(** [crc16_ccitt] tells apart any two payloads that differ in exactly one
    byte: a corruption confined to a single byte always changes the
    checksum. *)
Theorem crc_detects_single_byte_error before x x' after :
  x ≠ x' →
  crc16_ccitt (before ++ x :: after) ≠ crc16_ccitt (before ++ x' :: after).
Proof.
  intros Hne Heq. unfold crc16_ccitt in Heq.
  rewrite !fold_left_app in Heq. simpl in Heq.
  assert (fold_left crc_byte before 65535 < 65536) as Hpre
    by (by apply fold_crc_bound).
  apply fold_crc_inj in Heq; [|apply crc_byte_bound..].
  by apply crc_byte_inj_byte in Heq.
Qed.

Lemma crc_detects_single_byte_error_witness :
  bool_decide (crc16_ccitt ([x41] ++ x42 :: [x43]) =
               crc16_ccitt ([x41] ++ x62 :: [x43])) = false.
Proof.
  apply bool_decide_eq_false, crc_detects_single_byte_error. discriminate.
Defined.

(** ** A session in which nothing arrives *)

Lemma waiting_not_nearly r : waiting r → progress_ge_99 r = false.
Proof.
  intros (Hdata & _ & _ & Hsize). apply not_true_is_false.
  rewrite progress_ge_99_spec, Hdata. simpl. lia.
Qed.

Lemma waiting_set_credits c r : waiting r → waiting (set_credits_sent c r).
Proof. by intros (? & ? & ? & ?). Qed.

Lemma send_credits_quiet credits ok r :
  ∃ c, (send_credits credits ok (deliver []) r).1 = set_credits_sent c r.
Proof.
  unfold send_credits. destruct (255 <? credits).
  - exists (credits_sent r). by destruct r.
  - rewrite !and_then_state. simpl. destruct ok; simpl; [by eexists|].
    exists (credits_sent r). by destruct r.
Qed.

Lemma stall_handling_quiet t r :
  quiet t → packet_buffer r = ∅ →
  ∃ c, (stall_handling t r).1 = set_credits_sent c r.
Proof.
  intros [_ Hquiet] Hbuf. unfold stall_handling.
  rewrite !and_then_state. cbn [say fst]. rewrite Hquiet.
  destruct (send_credits_quiet 32 (stall_write_ok t) r) as [c ->].
  rewrite stall_recovery_nothing by done. by exists c.
Qed.

(** A pass during which nothing arrives leaves a waiting receiver as it
    is, the credit counter apart, and ends the session exactly when the
    clock has passed 60 s. *)
Lemma loop_body_quiet t stalls r :
  quiet t → waiting r →
  ∃ c,
    (loop_body t (mkVars 0 stalls) r).1.1 = set_credits_sent c r ∧
    (60000 < elapsed_ms t →
     (loop_body t (mkVars 0 stalls) r).2 = inr ReturnTimeout) ∧
    (elapsed_ms t ≤ 60000 →
     ∃ stalls', (loop_body t (mkVars 0 stalls) r).2 = inl (mkVars 0 stalls')).
Proof.
  intros Hquiet Hr. pose proof (waiting_not_nearly r Hr) as Hprog.
  destruct Hr as (Hdata & Hbuf & Hc & Hsize).
  destruct (stall_handling_quiet t r Hquiet Hbuf) as [c Hstate].
  destruct Hquiet as [Harr _].
  unfold loop_body. rewrite Harr. simpl deliver. cbn [idle say]. rewrite Hc.
  unfold stall_check. rewrite Hdata, Hprog.
  cbn [length last_received stall_count Nat.eqb].
  destruct (20 <? S stalls)%nat.
  - destruct (stall_handling t r) as [r2 e2]. simpl in Hstate. subst r2.
    cbn [received_data set_credits_sent]. rewrite Hdata.
    exists c. destruct (N.ltb_spec 60000 (elapsed_ms t)); simpl.
    + split; [done|]. split; [done|]. lia.
    + split; [done|]. split; [lia|]. by eexists.
  - rewrite Hdata. exists (credits_sent r).
    destruct (N.ltb_spec 60000 (elapsed_ms t)); simpl.
    + split; [by destruct r|]. split; [done|]. lia.
    + split; [by destruct r|]. split; [lia|]. by eexists.
Qed.

Lemma download_loop_quiet ts stalls r :
  Forall quiet ts →
  Exists (λ t, 60000 < elapsed_ms t) ts →
  waiting r →
  ∃ c,
    (download_loop ts (mkVars 0 stalls) r).1.1 = set_credits_sent c r ∧
    (download_loop ts (mkVars 0 stalls) r).2 = Some ReturnTimeout.
Proof.
  revert stalls r. induction ts as [|t ts IH]; intros stalls r Hquiet Hlate Hr.
  { by apply Exists_nil in Hlate. }
  apply Forall_cons in Hquiet as [Ht Hts].
  destruct (loop_body_quiet t stalls r Ht Hr) as (c & Hstate & Hfire & Hgo).
  destruct Hr as (Hdata & Hbuf & Hc & Hsize).
  simpl. rewrite Hdata, Hc.
  replace (N.of_nat (length []) <? file_size r) with true
    by (symmetry; apply N.ltb_lt; simpl; lia).
  cbn [andb negb].
  destruct (loop_body t (mkVars 0 stalls) r) as [[r1 e1] next].
  simpl in Hstate, Hfire, Hgo. subst r1.
  destruct (N.lt_ge_cases 60000 (elapsed_ms t)) as [Hnow|Hearly].
  - rewrite (Hfire Hnow). simpl. by exists c.
  - destruct (Hgo Hearly) as [stalls' ->].
    apply Exists_cons in Hlate as [?|Hlate]; [lia|].
    destruct (IH stalls' (set_credits_sent c r) Hts Hlate) as (c' & Hstate' & Hx).
    { by apply waiting_set_credits. }
    destruct (download_loop ts (mkVars 0 stalls') _) as [[r2 e2] x].
    simpl in *. subst r2 x. by exists c'.
Qed.

(** When the subscription succeeds, the file is not empty, no frame at
    all arrives and some pass reads more than 60 s on the clock,
    [download_file] returns failure through the 60 s check: the outcome is
    TimedOut, nothing has been received, and [stop_notify] has not been
    called, whether the credit writes succeeded or not. *)
Theorem silent_session_times_out env r :
  start_ok env = true →
  0 < file_size r →
  initial_arrivals env = [] →
  Forall quiet (ticks env) →
  Exists (λ t, 60000 < elapsed_ms t) (ticks env) →
  (download_file env r).2 = Some TimedOut ∧
  received_data (download_file env r).1.1 = [] ∧
  total_packets (download_file env r).1.1 = 0 ∧
  stop_notify_calls (download_file env r).1.2 = 0%nat.
Proof.
  intros Hstart Hsize Hinit Hquiet Hlate.
  unfold download_file. rewrite Hstart, Hinit. simpl negb. cbn iota.
  destruct (send_credits_quiet 64 (initial_write_ok env) (reset r)) as [c Hr1].
  destruct (orderly_send_credits 64 (initial_write_ok env) (deliver [])
              (orderly_deliver []) (reset r)) as [_ Hev1].
  destruct (send_credits 64 (initial_write_ok env) (deliver []) (reset r))
    as [r1 e1]. simpl in Hr1, Hev1. subst r1.
  destruct (download_loop_quiet (ticks env) 0 (set_credits_sent c (reset r))
              Hquiet Hlate) as (c' & Hstate & Hx).
  { by repeat split. }
  destruct (download_loop_orderly (ticks env) (mkVars 0 0)
              (set_credits_sent c (reset r))) as [_ Hev2].
  destruct (download_loop (ticks env) (mkVars 0 0) _) as [[r2 e2] x].
  simpl in Hstate, Hx, Hev2. subst r2 x. simpl.
  split; [done|]. split; [done|]. split; [done|].
  apply no_stop_calls. simpl. by rewrite forallb_app, Hev1, Hev2.
Qed.

Lemma silent_session_times_out_witness :
  (download_file silent_session (fresh 1000)).2 = Some TimedOut ∧
  received_data (download_file silent_session (fresh 1000)).1.1 = [] ∧
  total_packets (download_file silent_session (fresh 1000)).1.1 = 0 ∧
  stop_notify_calls (download_file silent_session (fresh 1000)).1.2 = 0%nat.
Proof.
  apply silent_session_times_out.
  - reflexivity.
  - reflexivity.
  - reflexivity.
  - change (ticks silent_session) with (idle_tick <$> seq 0 121).
    apply Forall_fmap, Forall_forall. intros i _. by split.
  - change (ticks silent_session) with (idle_tick <$> seq 0 121).
    apply Exists_exists. exists (idle_tick 120). split; [|reflexivity].
    apply list_elem_of_fmap. exists 120%nat. split; [done|].
    apply elem_of_seq. lia.
Defined.
